(** * Rate limiters of [data-structures/rate-limiter.ts]

    A shallow embedding of the three limiters of the file (token bucket,
    sliding window log, store-backed token bucket) and of the Express-style
    middleware, followed by the properties the specification states about
    them.

    Conventions of the embedding.
    - A JavaScript [number] holding a timestamp, a token count or a
      configuration value is an integer, modelled as [Z]; on integers
      [Math.floor(a / b)] is [a / b] of [Z] (both round towards minus
      infinity, for either sign of [b]) as long as [b] is not zero.  A zero
      [refillInterval] makes JavaScript produce [Infinity] or [NaN]; every
      statement below that looks at the quotient assumes the interval is
      positive, and nothing evaluated below divides by a zero interval.
      [Math.floor] of a token count, an integer, is the count itself.
    - [Date.now()] is an explicit argument [now]; a [Date] is its timestamp.
    - A method of a class takes the object as its last argument and returns
      the object it leaves behind next to its outcome; a [throw] (a rejected
      promise for an [async] method) is the left injection of the outcome. *)

From Stdlib Require Import ZArith Lia Ascii.
From stdpp Require Import base option list strings gmap fin_maps sorting.

Open Scope Z_scope.

(** ** Numbers *)

(** [Math.floor(a / b)]. *)
Definition floor_div (a b : Z) : Z := a / b.

(** [Math.ceil(a / b)]. *)
Definition ceil_div (a b : Z) : Z := - ((- a) / b).

(** ** Type definitions *)

Record RateLimitConfig := {
  maxTokens : Z;
  refillRate : Z;
  refillInterval : Z
}.

Record RateLimitResult := {
  allowed : bool;
  remaining : Z;
  resetAt : Z;
  retryAfter : option Z
}.

Record TokenBucket := {
  tokens : Z;
  lastRefill : Z
}.

(** What a method can throw. *)
Inductive Exn :=
| NotImplemented              (* new Error("Not implemented") *)
| TypeError                   (* a property read on [undefined] *)
| StoreFailure (reason : string). (* a rejected promise of the store *)

#[global] Instance RateLimitResult_eq_dec : EqDecision RateLimitResult.
Proof. solve_decision. Defined.
#[global] Instance TokenBucket_eq_dec : EqDecision TokenBucket.
Proof. solve_decision. Defined.
#[global] Instance Exn_eq_dec : EqDecision Exn.
Proof. solve_decision. Defined.

(** The positivity the specification asks of a token-bucket configuration. *)
Definition valid_config (c : RateLimitConfig) : Prop :=
  0 < maxTokens c ∧ 0 < refillRate c ∧ 0 < refillInterval c.

(** ** The in-memory token bucket: [class RateLimiter] *)

Module RateLimiter.

Record t := {
  buckets : gmap string TokenBucket;
  config : RateLimitConfig;
  cleanupInterval : bool   (* is the [setInterval] timer installed *)
}.

Definition with_buckets (self : t) (m : gmap string TokenBucket) : t :=
  {| buckets := m; config := config self;
     cleanupInterval := cleanupInterval self |}.

(** [constructor(config)]: stores the configuration and installs the
    clean-up timer.  The body has no [throw]. *)
Definition constructor (cfg : RateLimitConfig) : Exn + t :=
  inr {| buckets := ∅; config := cfg; cleanupInterval := true |}.

(** [async limit(key, tokensRequested = 1)]: the body is the single
    statement [throw new Error("Not implemented")]. *)
Definition limit (now : Z) (key : string) (tokensRequested : Z) (self : t)
  : (Exn + RateLimitResult) * t :=
  (inl NotImplemented, self).

(** The default argument of [limit]. *)
Definition limit_default (now : Z) (key : string) (self : t)
  : (Exn + RateLimitResult) * t :=
  limit now key 1 self.

(** [refillTokens(bucket)]: the bucket after the in-place update. *)
Definition refillTokens (cfg : RateLimitConfig) (now : Z) (bucket : TokenBucket)
  : TokenBucket :=
  let timePassed := now - lastRefill bucket in
  let intervalsElapsed := floor_div timePassed (refillInterval cfg) in
  if 0 <? intervalsElapsed then
    let tokensToAdd := intervalsElapsed * refillRate cfg in
    {| tokens := Z.min (maxTokens cfg) (tokens bucket + tokensToAdd);
       lastRefill := now |}
  else bucket.

(** [getStatus(key)]: the refill runs on the copy [{ ...bucket }]; the
    map and the bucket it holds are not written. *)
Definition getStatus (now : Z) (key : string) (self : t) : RateLimitResult * t :=
  match buckets self !! key with
  | None =>
      ({| allowed := true;
          remaining := maxTokens (config self);
          resetAt := now + refillInterval (config self);
          retryAfter := None |}, self)
  | Some bucket =>
      let tempBucket := bucket in
      let tempBucket := refillTokens (config self) now tempBucket in
      ({| allowed := bool_decide (1 ≤ tokens tempBucket);
          remaining := tokens tempBucket;
          resetAt := lastRefill bucket + refillInterval (config self);
          retryAfter := None |}, self)
  end.

(** [reset(key)]. *)
Definition reset (key : string) (self : t) : t :=
  with_buckets self (delete key (buckets self)).

(** [cleanup()]: drops the buckets last refilled over five minutes ago. *)
Definition cleanup (now : Z) (self : t) : t :=
  let fiveMinutesAgo := now - 5 * 60 * 1000 in
  with_buckets self
    (filter (λ kb, ¬ (lastRefill kb.2 < fiveMinutesAgo)) (buckets self)).

(** [destroy()]. *)
Definition destroy (self : t) : t :=
  {| buckets := ∅; config := config self; cleanupInterval := false |}.

(** One call on the object, with the clock reading it is made at. *)
Inductive call :=
| CallLimit (now : Z) (key : string) (tokensRequested : Z)
| CallGetStatus (now : Z) (key : string)
| CallReset (key : string)
| CallCleanup (now : Z)
| CallDestroy.

Definition step (self : t) (c : call) : t :=
  match c with
  | CallLimit now key n => (limit now key n self).2
  | CallGetStatus now key => (getStatus now key self).2
  | CallReset key => reset key self
  | CallCleanup now => cleanup now self
  | CallDestroy => destroy self
  end.

Definition run (cs : list call) (self : t) : t := foldl step self cs.

(** [n] status checks of one key at the clock readings [nows], with the
    results in call order. *)
Fixpoint statuses (nows : list Z) (key : string) (self : t)
  : list RateLimitResult * t :=
  match nows with
  | [] => ([], self)
  | now :: rest =>
      let '(r, self1) := getStatus now key self in
      let '(rs, self2) := statuses rest key self1 in
      (r :: rs, self2)
  end.

End RateLimiter.

(** The configuration of the first test of the suite. *)
Definition testConfig : RateLimitConfig :=
  {| maxTokens := 5; refillRate := 1; refillInterval := 1000 |}.

(** ** The sliding window log: [class SlidingWindowRateLimiter] *)

Record WindowEntry := {
  timestamp : Z;
  count : Z
}.

Module SlidingWindowRateLimiter.

Record t := {
  windows : gmap string (list WindowEntry);
  windowSize : Z;
  maxRequests : Z
}.

(** [constructor(windowSize, maxRequests)]: two assignments, no [throw]. *)
Definition constructor (windowSize maxRequests : Z) : Exn + t :=
  inr {| windows := ∅; windowSize := windowSize; maxRequests := maxRequests |}.

(** [entries.filter(entry => entry.timestamp > windowStart)]. *)
Definition prune (windowStart : Z) (entries : list WindowEntry)
  : list WindowEntry :=
  filter (λ entry, windowStart < timestamp entry) entries.

(** [entries.reduce((sum, entry) => sum + entry.count, 0)]. *)
Definition total (entries : list WindowEntry) : Z :=
  foldl (λ sum entry, sum + count entry) 0 entries.

(** [async limit(key)].  The filtered array is a fresh one: the stored log
    is replaced only by the [this.windows.set] of the allowed path.  With
    no surviving entry, [entries[0]] is [undefined] and reading its
    [timestamp] throws. *)
Definition limit (now : Z) (key : string) (self : t)
  : (Exn + RateLimitResult) * t :=
  let windowStart := now - windowSize self in
  let entries := default [] (windows self !! key) in
  let entries := prune windowStart entries in
  let totalRequests := total entries in
  if maxRequests self <=? totalRequests then
    match entries with
    | [] => (inl TypeError, self)
    | oldestEntry :: _ =>
        (inr {| allowed := false;
                remaining := 0;
                resetAt := timestamp oldestEntry + windowSize self;
                retryAfter :=
                  Some (ceil_div
                          (timestamp oldestEntry + windowSize self - now) 1000) |},
         self)
    end
  else
    let entries := entries ++ [{| timestamp := now; count := 1 |}] in
    (inr {| allowed := true;
            remaining := maxRequests self - totalRequests - 1;
            resetAt := now + windowSize self;
            retryAfter := None |},
     {| windows := <[key := entries]> (windows self);
        windowSize := windowSize self;
        maxRequests := maxRequests self |}).

(** The log kept for a key ([[]] when the map has none). *)
Definition log (key : string) (self : t) : list WindowEntry :=
  default [] (windows self !! key).

(** A sequence of [limit] calls, each with its clock reading and key. *)
Definition run (calls : list (Z * string)) (self : t) : t :=
  foldl (λ s c, (limit c.1 c.2 s).2) self calls.

(** A fresh limiter. *)
Definition fresh (windowSize maxRequests : Z) : t :=
  {| windows := ∅; windowSize := windowSize; maxRequests := maxRequests |}.

(** The limiter with the log of [key] replaced by [entries]. *)
Definition with_log (key : string) (entries : list WindowEntry) (self : t) : t :=
  {| windows := <[key := entries]> (windows self);
     windowSize := windowSize self;
     maxRequests := maxRequests self |}.

(** What every stored log of a limiter used through [limit] looks like: one request per entry, and no more
    entries than [maxRequests]. *)
Definition log_ok (maxRequests : Z) (entries : list WindowEntry) : Prop :=
  Forall (λ e, count e = 1) entries ∧ Z.of_nat (length entries) ≤ maxRequests.

Definition windows_ok (self : t) : Prop :=
  map_Forall (λ _ entries, log_ok (maxRequests self) entries) (windows self).

End SlidingWindowRateLimiter.

(** ** The store-backed token bucket: [class DistributedRateLimiter] *)

(** [interface RateLimitStore], restricted to the two operations the limiter
    calls.  The value is the bucket that [JSON.stringify] wrote and
    [JSON.parse] reads back; each operation may reject, and may change the
    state [S] of the store. *)
Record RateLimitStore (S : Type) := {
  store_get : string → S → (Exn + option TokenBucket) * S;
  store_set : string → TokenBucket → Z → S → (Exn + ()) * S
}.
Arguments store_get {S} _ _ _.
Arguments store_set {S} _ _ _ _ _.

(** An [async] body over the store: what it awaits, in order. *)
Inductive Async (A : Type) : Type :=
| Resolve (a : A)
| Reject (e : Exn)
| AwaitGet (key : string) (k : option TokenBucket → Async A)
| AwaitSet (key : string) (value : TokenBucket) (expiryMs : Z) (k : Async A).
Arguments Resolve {A} _.
Arguments Reject {A} _.
Arguments AwaitGet {A} _ _.
Arguments AwaitSet {A} _ _ _ _.

(** The calls a run makes on the store. *)
Inductive StoreCall :=
| SGet (key : string)
| SSet (key : string) (value : TokenBucket) (expiryMs : Z).

#[global] Instance StoreCall_eq_dec : EqDecision StoreCall.
Proof. solve_decision. Defined.

(** Running an [async] body against a store: the outcome, the store left
    behind and the calls made.  An awaited promise that rejects is rethrown
    at the [await]; the bodies modelled here have no [try]. *)
Fixpoint exec {S A : Type} (st : RateLimitStore S) (p : Async A) (s : S)
  : (Exn + A) * S * list StoreCall :=
  match p with
  | Resolve a => (inr a, s, [])
  | Reject e => (inl e, s, [])
  | AwaitGet key k =>
      match store_get st key s with
      | (inl e, s1) => (inl e, s1, [SGet key])
      | (inr data, s1) =>
          let '(r, s2, calls) := exec st (k data) s1 in
          (r, s2, SGet key :: calls)
      end
  | AwaitSet key value expiryMs k =>
      match store_set st key value expiryMs s with
      | (inl e, s1) => (inl e, s1, [SSet key value expiryMs])
      | (inr _, s1) =>
          let '(r, s2, calls) := exec st k s1 in
          (r, s2, SSet key value expiryMs :: calls)
      end
  end.

Module DistributedRateLimiter.

(** The template literal [`ratelimit:${key}`]. *)
Definition bucketKey (key : string) : string := "ratelimit:" +:+ key.

(** The bucket [limit] starts from: the parsed one, or a full one. *)
Definition loaded (cfg : RateLimitConfig) (now : Z) (data : option TokenBucket)
  : TokenBucket :=
  match data with
  | Some bucket => bucket
  | None => {| tokens := maxTokens cfg; lastRefill := now |}
  end.

(** The refill statements of [limit] (they repeat [refillTokens]). *)
Definition refilled (cfg : RateLimitConfig) (now : Z) (bucket : TokenBucket)
  : TokenBucket :=
  let timePassed := now - lastRefill bucket in
  let intervalsElapsed := floor_div timePassed (refillInterval cfg) in
  if 0 <? intervalsElapsed then
    let tokensToAdd := intervalsElapsed * refillRate cfg in
    {| tokens := Z.min (maxTokens cfg) (tokens bucket + tokensToAdd);
       lastRefill := now |}
  else bucket.

(** [async limit(key)]. *)
Definition limit (cfg : RateLimitConfig) (now : Z) (key : string)
  : Async RateLimitResult :=
  AwaitGet (bucketKey key) (λ data,
    let bucket0 := loaded cfg now data in
    let timePassed := now - lastRefill bucket0 in
    let bucket := refilled cfg now bucket0 in
    if 1 <=? tokens bucket then
      let bucket := {| tokens := tokens bucket - 1;
                       lastRefill := lastRefill bucket |} in
      AwaitSet (bucketKey key) bucket (refillInterval cfg * 2)
        (Resolve {| allowed := true;
                    remaining := tokens bucket;
                    resetAt := lastRefill bucket + refillInterval cfg;
                    retryAfter := None |})
    else
      let retryAfter := ceil_div (refillInterval cfg - timePassed) 1000 in
      Resolve {| allowed := false;
                 remaining := 0;
                 resetAt := lastRefill bucket + refillInterval cfg;
                 retryAfter := Some retryAfter |}).

End DistributedRateLimiter.

(** ** Three stores *)

(** What a key-value store holds: the value with the expiry it was set with. *)
Abbreviation StoreState := (gmap string (TokenBucket * Z)).

(** A store that answers. *)
Definition memStore : RateLimitStore StoreState :=
  {| store_get := λ key s, (inr (fst <$> s !! key), s);
     store_set := λ key value expiryMs s,
                    (inr (), <[key := (value, expiryMs)]> s) |}.

(** A store that cannot be reached. *)
Definition downStore : RateLimitStore StoreState :=
  {| store_get := λ key s, (inl (StoreFailure "ECONNREFUSED"), s);
     store_set := λ key value expiryMs s,
                    (inl (StoreFailure "ECONNREFUSED"), s) |}.

(** A store that reads but refuses writes. *)
Definition readOnlyStore : RateLimitStore StoreState :=
  {| store_get := λ key s, (inr (fst <$> s !! key), s);
     store_set := λ key value expiryMs s,
                    (inl (StoreFailure "READONLY"), s) |}.

(** What happens to the answering store over time: a [limit] call of some
    limiter, or the store dropping a key whose time to live ran out. *)
Inductive StoreEvent :=
| EvLimit (now : Z) (key : string)
| EvExpire (storeKey : string).

Definition store_step (cfg : RateLimitConfig) (s : StoreState) (ev : StoreEvent)
  : StoreState :=
  match ev with
  | EvLimit now key => (exec memStore (DistributedRateLimiter.limit cfg now key) s).1.2
  | EvExpire storeKey => delete storeKey s
  end.

Definition store_run (cfg : RateLimitConfig) (evs : list StoreEvent) (s : StoreState)
  : StoreState :=
  foldl (store_step cfg) s evs.

(** ** The middleware: [createRateLimitMiddleware] *)

Record Request := {
  ip : string;
  user : option string   (* [user.id], when there is a [user] *)
}.

(** What the middleware does with the request. *)
Inductive Handled :=
| Next                                                  (* [next()] *)
| TooManyRequests (retryAfter : option Z) (resetAt : Z). (* [res.status(429).json(..)] *)

(** [req.user?.id || req.ip]: an empty id is falsy. *)
Definition requestKey (req : Request) : string :=
  match user req with
  | Some id => if decide (id = "") then ip req else id
  | None => ip req
  end.

(** The [try { .. } catch (error) { .. }] around the outcome of
    [await limiter.limit(key)], with what [console.error] was given. *)
Definition handle (outcome : Exn + RateLimitResult) : Handled * list Exn :=
  match outcome with
  | inr result =>
      if negb (allowed result)
      then (TooManyRequests (retryAfter result) (resetAt result), [])
      else (Next, [])
  | inl error => (Next, [error])
  end.

Definition createRateLimitMiddleware (limiter : RateLimiter.t) (now : Z)
    (req : Request) : Handled * list Exn * RateLimiter.t :=
  let key := requestKey req in
  let '(outcome, limiter1) := RateLimiter.limit_default now key limiter in
  (handle outcome, limiter1).

(** The outcomes of a sequence of store-backed [limit] calls on the
    answering store, in call order. *)
Fixpoint limit_outcomes (cfg : RateLimitConfig) (calls : list (Z * string))
    (s : StoreState) : list (Exn + RateLimitResult) :=
  match calls with
  | [] => []
  | (now, key) :: rest =>
      let '(r, s1, _) := exec memStore (DistributedRateLimiter.limit cfg now key) s in
      r :: limit_outcomes cfg rest s1
  end.

(** The outcomes of a sequence of sliding-window [limit] calls. *)
Fixpoint window_outcomes (calls : list (Z * string))
    (self : SlidingWindowRateLimiter.t) : list (Exn + RateLimitResult) :=
  match calls with
  | [] => []
  | (now, key) :: rest =>
      let '(r, self1) := SlidingWindowRateLimiter.limit now key self in
      r :: window_outcomes rest self1
  end.

(** What a test prints of an outcome: allowed or not, and [remaining]. *)
Definition verdict (outcome : Exn + RateLimitResult) : option (bool * Z) :=
  match outcome with
  | inr r => Some (allowed r, remaining r)
  | inl _ => None
  end.

(** ** The capacity bound *)

Definition bucket_ok (cfg : RateLimitConfig) (bucket : TokenBucket) : Prop :=
  0 ≤ tokens bucket ≤ maxTokens cfg.

(** Every bucket of an in-memory limiter is within its capacity. *)
Definition buckets_ok (self : RateLimiter.t) : Prop :=
  map_Forall (λ _ bucket, bucket_ok (RateLimiter.config self) bucket)
    (RateLimiter.buckets self).

(** Every bucket held by the answering store is within the capacity. *)
Definition store_ok (cfg : RateLimitConfig) (s : StoreState) : Prop :=
  map_Forall (λ _ v, bucket_ok cfg v.1) s.

(** The bucket [DistributedRateLimiter.limit] writes on its allowed path. *)
Definition consumed (bucket : TokenBucket) : TokenBucket :=
  {| tokens := tokens bucket - 1; lastRefill := lastRefill bucket |}.

(** ** Counting what was let through *)

(** Is the outcome of a call a result that allows the request. *)
Definition is_allowed (outcome : Exn + RateLimitResult) : bool :=
  match outcome with
  | inr r => allowed r
  | inl _ => false
  end.

(** The clock readings of the calls of [key] that a sliding-window limiter
    allowed, in call order. *)
Fixpoint window_allowed_times (key : string) (calls : list (Z * string))
    (self : SlidingWindowRateLimiter.t) : list Z :=
  match calls with
  | [] => []
  | (now, k) :: rest =>
      let '(r, self1) := SlidingWindowRateLimiter.limit now k self in
      (if bool_decide (k = key) && is_allowed r then [now] else [])
      ++ window_allowed_times key rest self1
  end.



(** * Tries: the second half of the file

    A character is an [ascii] and a word a list of characters (the file
    walks a word with [for .. of] in some methods and by index in others;
    the two agree on the strings modelled here).  A [Map] from characters to
    nodes is the list of its entries in insertion order, the order its
    iteration follows; a [Map] holds a key once. *)

Abbreviation Word := (list ascii).

Section js_map.
Context {V : Type}.

(** [m.get(char)]. *)
Fixpoint children_get (char : ascii) (m : list (ascii * V)) : option V :=
  match m with
  | [] => None
  | (c, v) :: rest => if decide (c = char) then Some v else children_get char rest
  end.

(** [m.set(char, v)]: the value of a key already there is replaced where
    it is; a new key goes last. *)
Fixpoint children_set (char : ascii) (v : V) (m : list (ascii * V))
  : list (ascii * V) :=
  match m with
  | [] => [(char, v)]
  | (c, x) :: rest =>
      if decide (c = char) then (c, v) :: rest
      else (c, x) :: children_set char v rest
  end.

(** [m.delete(char)]. *)
Definition children_delete (char : ascii) (m : list (ascii * V))
  : list (ascii * V) :=
  filter (λ entry, entry.1 ≠ char) m.

End js_map.

(** [class TrieNode]. *)
#[warnings="-register-all"]
Inductive TrieNode :=
| Node (isEndOfWord : bool) (children : list (ascii * TrieNode)).

Definition isEndOfWord (node : TrieNode) : bool :=
  match node with Node e _ => e end.

Definition children (node : TrieNode) : list (ascii * TrieNode) :=
  match node with Node _ ch => ch end.

(** [new TrieNode()]. *)
Definition newTrieNode : TrieNode := Node false [].

(** Every [Map] of the structure holds each of its keys once. *)
Fixpoint unique_keys (node : TrieNode) : Prop :=
  match node with
  | Node _ ch =>
      NoDup ch.*1
      ∧ (fix all (l : list (ascii * TrieNode)) : Prop :=
           match l with
           | [] => True
           | entry :: rest => unique_keys entry.2 ∧ all rest
           end) ch
  end.

(** The words below a node, in the order a walk in iteration order meets
    the nodes that end a word. *)
Fixpoint words_of (node : TrieNode) : list Word :=
  match node with
  | Node e ch =>
      (if e then [[]] else [])
      ++ mjoin ((λ entry, (entry.1 ::.) <$> words_of entry.2) <$> ch)
  end.

Module Trie.

Record t := { root : TrieNode }.

(** [constructor()]. *)
Definition constructor : t := {| root := newTrieNode |}.

(** [insert(word)], [search(word)], [startsWith(prefix)]: each body is the
    single statement [throw new Error("Not implemented")]. *)
Definition insert (word : Word) (self : t) : (Exn + ()) * t :=
  (inl NotImplemented, self).

Definition search (word : Word) (self : t) : (Exn + bool) * t :=
  (inl NotImplemented, self).

Definition startsWith (prefix : Word) (self : t) : (Exn + bool) * t :=
  (inl NotImplemented, self).

(** [deleteHelper(node, word, index)], on the part of the word from
    [index] on: the answer and the node after the updates made in place. *)
Fixpoint deleteHelper (node : TrieNode) (word : Word) : bool * TrieNode :=
  match word with
  | [] =>
      if negb (isEndOfWord node) then (false, node)
      else (bool_decide (length (children node) = 0%nat),
            Node false (children node))
  | char :: rest =>
      match children_get char (children node) with
      | None => (false, node)
      | Some childNode =>
          let '(shouldDeleteChild, childNode) := deleteHelper childNode rest in
          let children1 := children_set char childNode (children node) in
          if shouldDeleteChild then
            let children2 := children_delete char children1 in
            (bool_decide (length children2 = 0%nat) && negb (isEndOfWord node),
             Node (isEndOfWord node) children2)
          else (false, Node (isEndOfWord node) children1)
      end
  end.

(** [delete(word)]. *)
Definition delete (word : Word) (self : t) : bool * t :=
  let '(answer, root) := deleteHelper (root self) word in
  (answer, {| root := root |}).

(** [collectWords(node, prefix, words)]: the array [words] after the
    pushes. *)
Fixpoint collectWords (node : TrieNode) (prefix : Word) (words : list Word)
  : list Word :=
  match node with
  | Node e ch =>
      let words := if e then words ++ [prefix] else words in
      foldl (λ words entry, collectWords entry.2 (prefix ++ [entry.1]) words)
        words ch
  end.

(** [getAllWords()]. *)
Definition getAllWords (self : t) : list Word :=
  collectWords (root self) [] [].

(** The loop of [getWordsWithPrefix] that walks down the prefix. *)
Fixpoint descend (current : TrieNode) (prefix : Word) : option TrieNode :=
  match prefix with
  | [] => Some current
  | char :: rest =>
      match children_get char (children current) with
      | None => None
      | Some child => descend child rest
      end
  end.

(** [getWordsWithPrefix(prefix)]. *)
Definition getWordsWithPrefix (prefix : Word) (self : t) : list Word :=
  match descend (root self) prefix with
  | None => []
  | Some current => collectWords current prefix []
  end.

(** [countWordsHelper(node)]. *)
Fixpoint countWordsHelper (node : TrieNode) : Z :=
  match node with
  | Node e ch =>
      foldl (λ count entry, count + countWordsHelper entry.2)
        (if e then 1 else 0) ch
  end.

(** [countWords()]. *)
Definition countWords (self : t) : Z := countWordsHelper (root self).

(** [isEmpty()]. *)
Definition isEmpty (self : t) : bool :=
  bool_decide (length (children (root self)) = 0%nat).

(** [clear()]. *)
Definition clear (self : t) : t := {| root := newTrieNode |}.

End Trie.

(** [class WildcardTrie extends Trie]. *)
Module WildcardTrie.

(** [searchWildcardHelper(node, word, index)], on the part of the word
    from [index] on. *)
Fixpoint searchWildcardHelper (node : TrieNode) (word : Word) : bool :=
  match word with
  | [] => isEndOfWord node
  | char :: rest =>
      if decide (char = "."%char) then
        existsb (λ entry, searchWildcardHelper entry.2 rest) (children node)
      else
        match children_get char (children node) with
        | None => false
        | Some childNode => searchWildcardHelper childNode rest
        end
  end.

(** [searchWithWildcard(word)]. *)
Definition searchWithWildcard (word : Word) (self : Trie.t) : bool :=
  searchWildcardHelper (Trie.root self) word.

End WildcardTrie.

(** A word fits a pattern when they have the same length and every
    character of the pattern is a dot or the character of the word at its
    place. *)
Definition fits (pattern word : Word) : Prop :=
  Forall2 (λ p c, p = "."%char ∨ p = c) pattern word.

(** [class TrieNodeWithCount extends TrieNode]. *)
#[warnings="-register-all"]
Inductive TrieNodeWithCount :=
| NodeWithCount (isEndOfWord : bool) (count : Z)
    (children : list (ascii * TrieNodeWithCount)).

Module TrieWithCount.

Definition isEnd (node : TrieNodeWithCount) : bool :=
  match node with NodeWithCount e _ _ => e end.

Definition countOf (node : TrieNodeWithCount) : Z :=
  match node with NodeWithCount _ k _ => k end.

Definition childrenOf (node : TrieNodeWithCount)
  : list (ascii * TrieNodeWithCount) :=
  match node with NodeWithCount _ _ ch => ch end.

(** [new TrieNodeWithCount()]. *)
Definition newNode : TrieNodeWithCount := NodeWithCount false 0 [].

Record t := { root : TrieNodeWithCount }.

(** [constructor()]. *)
Definition constructor : t := {| root := newNode |}.

(** The loop of [insert] from [current] on, with the two assignments that
    follow it: the node after the updates made in place.  A missing child
    is created, entered last in the [Map], then walked into. *)
Fixpoint insertFrom (current : TrieNodeWithCount) (word : Word)
  : TrieNodeWithCount :=
  match word with
  | [] => NodeWithCount true (countOf current + 1) (childrenOf current)
  | char :: rest =>
      let child :=
        match children_get char (childrenOf current) with
        | Some child => child
        | None => newNode
        end in
      NodeWithCount (isEnd current) (countOf current)
        (children_set char (insertFrom child rest) (childrenOf current))
  end.

(** [insert(word)]. *)
Definition insert (word : Word) (self : t) : t :=
  {| root := insertFrom (root self) word |}.

(** The loop of [getCount] from [current] on, with the [return] that
    follows it. *)
Fixpoint getCountFrom (current : TrieNodeWithCount) (word : Word) : Z :=
  match word with
  | [] => if isEnd current then countOf current else 0
  | char :: rest =>
      match children_get char (childrenOf current) with
      | None => 0
      | Some child => getCountFrom child rest
      end
  end.

(** [getCount(word)]. *)
Definition getCount (word : Word) (self : t) : Z :=
  getCountFrom (root self) word.

(** The node a word leads to, if the path is there. *)
Fixpoint nodeAt (current : TrieNodeWithCount) (word : Word)
  : option TrieNodeWithCount :=
  match word with
  | [] => Some current
  | char :: rest =>
      match children_get char (childrenOf current) with
      | None => None
      | Some child => nodeAt child rest
      end
  end.

(** The two fields [getCount] reads at the end of a path; a path that is
    not there reads as a node just created. *)
Definition fields (node : option TrieNodeWithCount) : bool * Z :=
  match node with
  | Some n => (isEnd n, countOf n)
  | None => (false, 0)
  end.

(** The trie after the words of a list were inserted in order into a new
    one. *)
Definition inserted (words : list Word) : t :=
  foldl (λ trie word, insert word trie) constructor words.

(** [collectWordsWithCount(node, prefix, words)]: the array [words] after
    the pushes, an object [{ word, count }] being the pair of its fields. *)
Fixpoint collectWordsWithCount (node : TrieNodeWithCount) (prefix : Word)
    (words : list (Word * Z)) : list (Word * Z) :=
  match node with
  | NodeWithCount e k ch =>
      let words := if e then words ++ [(prefix, k)] else words in
      foldl (λ words entry,
               collectWordsWithCount entry.2 (prefix ++ [entry.1]) words)
        words ch
  end.

(** [words.sort((a, b) => b.count - a.count)].  The sort of an array is
    stable: [x], which comes before the elements of [sorted] in the array,
    goes before the first of them that the comparison does not put before
    it. *)
Fixpoint sortInsert (x : Word * Z) (sorted : list (Word * Z)) : list (Word * Z) :=
  match sorted with
  | [] => [x]
  | y :: rest =>
      if decide (x.2 - y.2 < 0) then y :: sortInsert x rest else x :: y :: rest
  end.

Definition sortByCount (words : list (Word * Z)) : list (Word * Z) :=
  foldr sortInsert [] words.

(** [words.slice(0, limit)] for an integer [limit]: a negative one counts
    from the end. *)
Definition sliceTo {A : Type} (limit : Z) (l : list A) : list A :=
  take (Z.to_nat (if limit <? 0 then Z.max 0 (Z.of_nat (length l) + limit)
                  else limit)) l.

(** [getMostFrequentWords(limit)]. *)
Definition getMostFrequentWords (limit : Z) (self : t) : list (Word * Z) :=
  sliceTo limit (sortByCount (collectWordsWithCount (root self) [] [])).

(** The words below a node with their counts, in the order a walk in
    iteration order meets the nodes that end a word. *)
Fixpoint entries_of (node : TrieNodeWithCount) : list (Word * Z) :=
  match node with
  | NodeWithCount e k ch =>
      (if e then [([], k)] else [])
      ++ mjoin ((λ entry, prod_map (entry.1 ::.) id <$> entries_of entry.2) <$> ch)
  end.

(** Every [Map] of the structure holds each of its keys once. *)
Fixpoint unique_keys (node : TrieNodeWithCount) : Prop :=
  match node with
  | NodeWithCount _ _ ch =>
      NoDup ch.*1
      ∧ (fix all (l : list (ascii * TrieNodeWithCount)) : Prop :=
           match l with
           | [] => True
           | entry :: rest => unique_keys entry.2 ∧ all rest
           end) ch
  end.

End TrieWithCount.

(** A node structure holding the words "to", "tea", "ten" and "i", entered
    in that order. *)
Definition sampleRoot : TrieNode :=
  Node false
    [("t"%char,
      Node false
        [("o"%char, Node true []);
         ("e"%char, Node false [("a"%char, Node true []); ("n"%char, Node true [])])]);
     ("i"%char, Node true [])].

(** * Properties *)

(** ** Arithmetic of the two roundings *)

Lemma floor_div_pos_iff (a d : Z) : 0 < d → (0 < floor_div a d ↔ d ≤ a).
Proof.
  intros Hd. unfold floor_div. split; intros H.
  - destruct (Z_lt_le_dec a d) as [Hlt|]; [|done].
    assert (a / d ≤ 0); [|lia].
    destruct (Z_lt_le_dec a 0).
    + pose proof (Z.div_lt_upper_bound a d 0 Hd). lia.
    + rewrite Z.div_small; lia.
  - apply Z.div_str_pos. lia.
Qed.

Lemma ceil_div_pos (a d : Z) : 0 < d → 0 < a → 1 ≤ ceil_div a d.
Proof.
  intros Hd Ha. unfold ceil_div.
  assert (- a / d < 0); [|lia].
  apply Z.div_lt_upper_bound; lia.
Qed.

Lemma refill_step_same cfg now bucket :
  DistributedRateLimiter.refilled cfg now bucket
  = RateLimiter.refillTokens cfg now bucket.
Proof. reflexivity. Qed.

Lemma refillTokens_full cfg now bucket :
  0 < refillInterval cfg →
  refillInterval cfg ≤ now - lastRefill bucket →
  RateLimiter.refillTokens cfg now bucket
  = {| tokens := Z.min (maxTokens cfg)
                   (tokens bucket
                    + floor_div (now - lastRefill bucket) (refillInterval cfg)
                      * refillRate cfg);
       lastRefill := now |}.
Proof.
  intros Hd Hle. unfold RateLimiter.refillTokens.
  apply (floor_div_pos_iff _ _ Hd) in Hle.
  apply Z.ltb_lt in Hle. by rewrite Hle.
Qed.

Lemma refillTokens_partial cfg now bucket :
  0 < refillInterval cfg →
  now - lastRefill bucket < refillInterval cfg →
  RateLimiter.refillTokens cfg now bucket = bucket.
Proof.
  intros Hd Hlt. unfold RateLimiter.refillTokens.
  destruct (Z.ltb_spec 0 (floor_div (now - lastRefill bucket) (refillInterval cfg)))
    as [Hpos|]; [|done].
  apply (floor_div_pos_iff _ _ Hd) in Hpos. lia.
Qed.

(** ** The token bucket *)

(** C1 (the code departs from it).  [RateLimiter.limit] returns no
    [RateLimitResult]: at every clock reading, for every key, every cost and
    every limiter it throws "Not implemented" and leaves the limiter as it
    was; so does the first call of scenario 1, on a fresh limiter with
    [maxTokens = 5], [refillRate = 1], [refillInterval = 1000] at [t = 0]. *)
Theorem limit_throws_not_implemented :
  (∀ now key tokensRequested self,
     RateLimiter.limit now key tokensRequested self = (inl NotImplemented, self))
  ∧ (∀ limiter, RateLimiter.constructor testConfig = inr limiter →
       (RateLimiter.limit_default 0 "user123" limiter).1 = inl NotImplemented).
Proof. split; [done|]. by intros limiter _. Qed.

(** C2.  With a positive refill interval, a refill at [now] of a bucket last
    refilled [elapsed] milliseconds earlier: once a full interval has
    elapsed it credits [floor(elapsed / refillInterval) * refillRate] tokens,
    capped at [maxTokens], and moves [lastRefill] to [now]; before that it
    changes neither field.  The refill statements of
    [DistributedRateLimiter.limit] do the same.  With [maxTokens = 5],
    [refillRate = 1], [refillInterval = 1000], a stored bucket with no token
    is reported with [remaining = 2] by a status check 2000 ms after its
    last refill. *)
Theorem refill_credits_full_intervals cfg now bucket :
  0 < refillInterval cfg →
  let elapsed := now - lastRefill bucket in
  (refillInterval cfg ≤ elapsed →
     RateLimiter.refillTokens cfg now bucket
     = {| tokens := Z.min (maxTokens cfg)
                      (tokens bucket
                       + floor_div elapsed (refillInterval cfg) * refillRate cfg);
          lastRefill := now |})
  ∧ (elapsed < refillInterval cfg →
       RateLimiter.refillTokens cfg now bucket = bucket)
  ∧ DistributedRateLimiter.refilled cfg now bucket
    = RateLimiter.refillTokens cfg now bucket
  ∧ (∀ key self t0,
       RateLimiter.config self = testConfig →
       RateLimiter.buckets self !! key = Some {| tokens := 0; lastRefill := t0 |} →
       remaining (RateLimiter.getStatus (t0 + 2000) key self).1 = 2).
Proof.
  intros Hd elapsed. repeat split.
  - by apply refillTokens_full.
  - by apply refillTokens_partial.
  - intros key self t0 Hcfg Hb. unfold RateLimiter.getStatus.
    rewrite Hb, Hcfg. cbn [fst remaining].
    rewrite refillTokens_full; cbn; try lia.
    replace (t0 + 2000 - t0) with 2000 by lia. reflexivity.
Qed.

Lemma refill_credits_full_intervals_witness :
  RateLimiter.refillTokens testConfig 2000 {| tokens := 0; lastRefill := 0 |}
  = {| tokens := 2; lastRefill := 2000 |}.
Proof.
  assert (H : 0 < refillInterval testConfig) by (cbn; lia).
  destruct (refill_credits_full_intervals testConfig 2000
              {| tokens := 0; lastRefill := 0 |} H) as [Hfull _].
  rewrite Hfull; [reflexivity | cbn; lia].
Defined.

Lemma getStatus_frame now key self :
  (RateLimiter.getStatus now key self).2 = self.
Proof. unfold RateLimiter.getStatus. by destruct (_ !! key). Qed.

Lemma statuses_spec nows key self :
  RateLimiter.statuses nows key self
  = (map (λ now, (RateLimiter.getStatus now key self).1) nows, self).
Proof.
  induction nows as [|now rest IH]; [done|]. cbn [RateLimiter.statuses map].
  pose proof (getStatus_frame now key self) as Hframe.
  destruct (RateLimiter.getStatus now key self) as [r self1].
  cbn in Hframe. subst self1. by rewrite IH.
Qed.

(** C5.  [n] status checks of a key with no other call in between leave the
    limiter, hence every stored bucket, as it was, whatever the clock
    readings; each check returns what a single check of the untouched
    limiter returns at its clock reading, so [n] checks at one clock
    reading return [n] identical results. *)
Theorem getStatus_repeated (n : nat) (now : Z) (nows : list Z) key self :
  RateLimiter.statuses (replicate n now) key self
  = (replicate n (RateLimiter.getStatus now key self).1, self)
  ∧ (RateLimiter.statuses nows key self).2 = self
  ∧ (RateLimiter.statuses nows key self).1
    = map (λ t, (RateLimiter.getStatus t key self).1) nows
  ∧ RateLimiter.buckets (RateLimiter.statuses nows key self).2
    = RateLimiter.buckets self.
Proof.
  rewrite !statuses_spec. repeat split.
  f_equal. induction n as [|n IH]; [done|]. cbn. by rewrite IH.
Qed.

(** C6, as the code has it.  Neither constructor checks its arguments: for
    every configuration, positive or not, construction succeeds and the
    limiter holds the values exactly as given. *)
Theorem constructors_accept_everything cfg windowSize maxRequests :
  RateLimiter.constructor cfg
  = inr {| RateLimiter.buckets := ∅; RateLimiter.config := cfg;
           RateLimiter.cleanupInterval := true |}
  ∧ SlidingWindowRateLimiter.constructor windowSize maxRequests
    = inr {| SlidingWindowRateLimiter.windows := ∅;
             SlidingWindowRateLimiter.windowSize := windowSize;
             SlidingWindowRateLimiter.maxRequests := maxRequests |}.
Proof. done. Qed.

(** C6 fails as stated: a token bucket of capacity 0 refilled by -1 every
    0 ms and a window of 0 ms for -3 requests are both constructed,
    no error raised. *)
Lemma constructors_accept_nonpositive :
  ¬ valid_config {| maxTokens := 0; refillRate := -1; refillInterval := 0 |}
  ∧ RateLimiter.constructor
      {| maxTokens := 0; refillRate := -1; refillInterval := 0 |}
    = inr {| RateLimiter.buckets := ∅;
             RateLimiter.config :=
               {| maxTokens := 0; refillRate := -1; refillInterval := 0 |};
             RateLimiter.cleanupInterval := true |}
  ∧ SlidingWindowRateLimiter.constructor 0 (-3)
    = inr {| SlidingWindowRateLimiter.windows := ∅;
             SlidingWindowRateLimiter.windowSize := 0;
             SlidingWindowRateLimiter.maxRequests := -3 |}.
Proof. split; [unfold valid_config; cbn; lia|]. by split. Qed.

(** ** The sliding window *)

Section sliding_window.
Import SlidingWindowRateLimiter.

Lemma elem_of_prune windowStart entries e :
  e ∈ prune windowStart entries ↔ e ∈ entries ∧ windowStart < timestamp e.
Proof. unfold prune. rewrite list_elem_of_filter. tauto. Qed.

Lemma prune_boundary windowStart before after e :
  timestamp e = windowStart →
  prune windowStart (before ++ e :: after) = prune windowStart (before ++ after).
Proof.
  intros He. unfold prune. rewrite !filter_app. f_equal.
  apply filter_cons_False. lia.
Qed.

Lemma log_with_log key entries self : log key (with_log key entries self) = entries.
Proof. unfold log, with_log. cbn. by rewrite lookup_insert_eq. Qed.

(** The outcome of [limit] depends on the limiter through the log of the
    key and the two settings only. *)
Lemma limit_outcome now key self :
  (limit now key self).1
  = let entries := prune (now - windowSize self) (log key self) in
    if maxRequests self <=? total entries then
      match entries with
      | [] => inl TypeError
      | oldestEntry :: _ =>
          inr {| allowed := false; remaining := 0;
                 resetAt := timestamp oldestEntry + windowSize self;
                 retryAfter :=
                   Some (ceil_div
                           (timestamp oldestEntry + windowSize self - now) 1000) |}
      end
    else inr {| allowed := true;
                remaining := maxRequests self - total entries - 1;
                resetAt := now + windowSize self;
                retryAfter := None |}.
Proof.
  unfold limit, log. cbn zeta.
  destruct (_ <=? _); [|done]. by destruct (prune _ _).
Qed.

(** C4.  At a call made at [now], the entries that survive pruning are
    exactly the entries of the log with a timestamp strictly above
    [now - windowSize]; an entry stamped exactly [now - windowSize] is not
    among them, and putting such an entry anywhere in the log changes
    nothing of what the call returns.  The call is denied when the counts
    of the surviving entries add up to [maxRequests] or more and allowed,
    with [remaining = maxRequests - total - 1], otherwise. *)
Theorem window_is_half_open now key self :
  let windowStart := now - windowSize self in
  let kept := prune windowStart (log key self) in
  (∀ e, e ∈ kept ↔ e ∈ log key self ∧ windowStart < timestamp e)
  ∧ (∀ e, timestamp e = windowStart → e ∉ kept)
  ∧ (∀ e before after,
       log key self = before ++ after → timestamp e = windowStart →
       (limit now key (with_log key (before ++ e :: after) self)).1
       = (limit now key self).1)
  ∧ (maxRequests self ≤ total kept →
       ∀ r, (limit now key self).1 = inr r → allowed r = false)
  ∧ (total kept < maxRequests self →
       (limit now key self).1
       = inr {| allowed := true;
                remaining := maxRequests self - total kept - 1;
                resetAt := now + windowSize self;
                retryAfter := None |}).
Proof.
  intros windowStart kept. split_and!.
  - intros e. apply elem_of_prune.
  - intros e He [_ Hin]%elem_of_prune. lia.
  - intros e before after Hlog He.
    rewrite !limit_outcome, log_with_log, Hlog. cbn [windowSize maxRequests with_log].
    by rewrite prune_boundary.
  - intros Hfull r. rewrite limit_outcome. cbn zeta. fold windowStart kept.
    apply Z.leb_le in Hfull. rewrite Hfull.
    destruct kept; [done|]. by intros [= <-].
  - intros Hroom. rewrite limit_outcome. cbn zeta. fold windowStart kept.
    apply Z.leb_gt in Hroom. by rewrite Hroom.
Qed.

End sliding_window.

Section sliding_window_reachable.
Import SlidingWindowRateLimiter.

Lemma total_from (acc : Z) entries :
  Forall (λ e, count e = 1) entries →
  foldl (λ sum entry, sum + count entry) acc entries
  = acc + Z.of_nat (length entries).
Proof.
  intros Hones. revert acc.
  induction Hones as [|e entries He _ IH]; intros acc; cbn [foldl length].
  - lia.
  - rewrite IH, He. lia.
Qed.

Lemma total_ones entries :
  Forall (λ e, count e = 1) entries → total entries = Z.of_nat (length entries).
Proof. intros H. unfold total. by rewrite total_from. Qed.

Lemma prune_ones windowStart entries :
  Forall (λ e, count e = 1) entries →
  Forall (λ e, count e = 1) (prune windowStart entries).
Proof.
  rewrite !Forall_forall. intros H e [Hin _]%elem_of_prune. by apply H.
Qed.

Lemma prune_keeps_all windowStart entries :
  (length entries ≤ length (prune windowStart entries))%nat →
  Forall (λ e, windowStart < timestamp e) entries.
Proof.
  intros Hlen. apply Forall_forall. intros e Hin.
  destruct (decide (windowStart < timestamp e)) as [|Hout]; [done|].
  pose proof (length_filter_lt (λ entry, windowStart < timestamp entry)
                entries e Hin Hout) as Hlt.
  unfold prune in Hlen. lia.
Qed.

Lemma limit_settings now key self :
  windowSize (limit now key self).2 = windowSize self
  ∧ maxRequests (limit now key self).2 = maxRequests self.
Proof.
  unfold limit. cbn zeta. destruct (_ <=? _); [|done]. by destruct (prune _ _).
Qed.

Lemma limit_windows_ok now key self :
  windows_ok self → windows_ok (limit now key self).2.
Proof.
  intros Hok. unfold limit. cbn zeta.
  set (kept := prune _ _).
  destruct (Z.leb_spec (maxRequests self) (total kept)) as [|Hroom].
  { by destruct kept. }
  unfold windows_ok. cbn. apply map_Forall_insert_2; [|done].
  assert (Hones : Forall (λ e, count e = 1) kept).
  { apply prune_ones. destruct (windows self !! key) as [entries|] eqn:Hkey; [|done].
    by destruct (Hok _ _ Hkey). }
  rewrite (total_ones _ Hones) in Hroom. split.
  - apply Forall_app. split; [done|]. by repeat constructor.
  - rewrite length_app. cbn. lia.
Qed.

Lemma run_cons c calls self :
  run (c :: calls) self = run calls (limit c.1 c.2 self).2.
Proof. reflexivity. Qed.

Lemma run_settings calls self :
  windowSize (run calls self) = windowSize self
  ∧ maxRequests (run calls self) = maxRequests self.
Proof.
  revert self. induction calls as [|c calls IH]; intros self; [done|].
  rewrite run_cons. destruct (IH (limit c.1 c.2 self).2) as [-> ->].
  apply limit_settings.
Qed.

Lemma run_windows_ok calls self : windows_ok self → windows_ok (run calls self).
Proof.
  revert self. induction calls as [|c calls IH]; intros self Hok; [done|].
  rewrite run_cons. by apply IH, limit_windows_ok.
Qed.

Lemma limit_prunes now key self :
  0 < windowSize self → windows_ok self →
  Forall (λ e, now - windowSize self < timestamp e) (log key (limit now key self).2).
Proof.
  intros Hsize Hok. unfold limit. cbn zeta.
  set (kept := prune _ _).
  destruct (Z.leb_spec (maxRequests self) (total kept)) as [Hfull|Hroom].
  - assert (Hall : Forall (λ e, now - windowSize self < timestamp e) (log key self)).
    { unfold log. destruct (windows self !! key) as [entries|] eqn:Hkey; [|done].
      destruct (Hok _ _ Hkey) as [Hones Hlen]. cbn.
      apply prune_keeps_all.
      rewrite (total_ones kept) in Hfull.
      - subst kept. change (default [] (Some entries)) with entries in Hfull. lia.
      - subst kept. by apply prune_ones. }
    by destruct kept.
  - unfold log. cbn. rewrite lookup_insert_eq. cbn.
    apply Forall_app. split.
    + apply Forall_forall. by intros e [_ ?]%elem_of_prune.
    + repeat constructor. cbn. lia.
Qed.

(** C9.  On a limiter built with a positive window and used through
    [limit] only, after every [limit] call, allowed, denied or thrown, the
    log stored for the key holds no entry stamped [now - windowSize] or
    earlier. *)
Theorem limit_leaves_no_stale_entry (size maxReq : Z) (calls : list (Z * string))
    (now : Z) (key : string) :
  0 < size →
  let self := run calls (fresh size maxReq) in
  ∀ e, e ∈ log key (limit now key self).2 → ¬ (timestamp e ≤ now - size).
Proof.
  intros Hsize self e Hin.
  assert (Hset : windowSize self = size) by apply (run_settings calls (fresh size maxReq)).
  assert (Hok : windows_ok self).
  { apply run_windows_ok. unfold windows_ok, fresh. cbn. apply map_Forall_empty. }
  pose proof (limit_prunes now key self) as Hall.
  rewrite Hset in Hall. specialize (Hall Hsize Hok).
  rewrite Forall_forall in Hall. specialize (Hall e Hin). lia.
Qed.

End sliding_window_reachable.

(** ** The store-backed token bucket *)

Section distributed.
Import DistributedRateLimiter.
Context {S : Type} (st : RateLimitStore S).

(** [limit] run against a store, step by step. *)
Lemma exec_limit cfg now key s :
  exec st (limit cfg now key) s
  = match store_get st (bucketKey key) s with
    | (inl e, s1) => (inl e, s1, [SGet (bucketKey key)])
    | (inr data, s1) =>
        let bucket := refilled cfg now (loaded cfg now data) in
        if 1 <=? tokens bucket then
          match store_set st (bucketKey key) (consumed bucket)
                  (refillInterval cfg * 2) s1 with
          | (inl e, s2) =>
              (inl e, s2,
               [SGet (bucketKey key);
                SSet (bucketKey key) (consumed bucket) (refillInterval cfg * 2)])
          | (inr _, s2) =>
              (inr {| allowed := true;
                      remaining := tokens bucket - 1;
                      resetAt := lastRefill bucket + refillInterval cfg;
                      retryAfter := None |},
               s2,
               [SGet (bucketKey key);
                SSet (bucketKey key) (consumed bucket) (refillInterval cfg * 2)])
          end
        else
          (inr {| allowed := false;
                  remaining := 0;
                  resetAt := lastRefill bucket + refillInterval cfg;
                  retryAfter :=
                    Some (ceil_div
                            (refillInterval cfg
                             - (now - lastRefill (loaded cfg now data))) 1000) |},
           s1, [SGet (bucketKey key)])
    end.
Proof.
  unfold limit. cbn [exec].
  destruct (store_get st (bucketKey key) s) as [[e|data] s1]; [done|].
  cbn zeta. destruct (1 <=? _); [|done].
  cbn [exec]. unfold consumed.
  by destruct (store_set st _ _ _ s1) as [[e|[]] s2].
Qed.

(** C7, as the code has it.  A [limit] call that resolves has read the
    bucket of the key once.  When it allows the request it then writes the
    refilled bucket less one token under the same key with a time to live
    of [2 * refillInterval], and makes no other call; when it denies the
    request it writes nothing: the read is its only call on the store. *)
Theorem state_written_back_when_allowed cfg now key s r s' calls :
  exec st (limit cfg now key) s = (inr r, s', calls) →
  ∃ data s1,
    store_get st (bucketKey key) s = (inr data, s1)
    ∧ let bucket := refilled cfg now (loaded cfg now data) in
      if allowed r then
        1 ≤ tokens bucket
        ∧ store_set st (bucketKey key) (consumed bucket) (2 * refillInterval cfg) s1
          = (inr (), s')
        ∧ calls = [SGet (bucketKey key);
                   SSet (bucketKey key) (consumed bucket) (2 * refillInterval cfg)]
      else
        tokens bucket < 1 ∧ s' = s1 ∧ calls = [SGet (bucketKey key)].
Proof.
  rewrite exec_limit.
  destruct (store_get st (bucketKey key) s) as [[e|data] s1]; [done|].
  cbn zeta. replace (refillInterval cfg * 2) with (2 * refillInterval cfg) by lia.
  destruct (Z.leb_spec 1 (tokens (refilled cfg now (loaded cfg now data)))) as [Hge|Hlt].
  - destruct (store_set st _ _ _ s1) as [[e|[]] s2] eqn:Hset; [done|].
    intros [= <- <- <-]. exists data, s1. by cbn.
  - intros [= <- <- <-]. exists data, s1. by cbn.
Qed.

(** C8, as the code has it.  A failure of the store's [get], or of its
    [set] on the allowed path, is the outcome of [limit]: the call rejects
    with the store's error.  Failing open is what the middleware does with
    an error of the limiter it wraps: it logs the error and lets the
    request through, which is what happens to every request, the wrapped
    [RateLimiter.limit] throwing each time. *)
Theorem store_failure_reaches_caller cfg now key s e s1 :
  (store_get st (bucketKey key) s = (inl e, s1)
   ∨ ∃ data s0,
       store_get st (bucketKey key) s = (inr data, s0)
       ∧ 1 ≤ tokens (refilled cfg now (loaded cfg now data))
       ∧ store_set st (bucketKey key)
           (consumed (refilled cfg now (loaded cfg now data)))
           (refillInterval cfg * 2) s0
         = (inl e, s1)) →
  (exec st (limit cfg now key) s).1 = (inl e, s1)
  ∧ handle (inl e) = (Next, [e])
  ∧ (∀ limiter t req,
       createRateLimitMiddleware limiter t req = (Next, [NotImplemented], limiter)).
Proof.
  intros H. split; [|done]. rewrite exec_limit.
  destruct H as [->|(data & s0 & -> & Hge & Hset)]; [done|].
  cbn zeta. apply Z.leb_le in Hge. by rewrite Hge, Hset.
Qed.

(** C10, as the code has it.  With [maxTokens], [refillRate] and
    [refillInterval] all at least 1 and a stored bucket, if any, holding no
    negative token count, a [limit] call that denies the request returns a
    [retryAfter] of at least 1. *)
Theorem denial_retries_after_a_second cfg now key s r s' calls :
  1 ≤ maxTokens cfg → 1 ≤ refillRate cfg → 1 ≤ refillInterval cfg →
  (∀ bucket s1,
     store_get st (bucketKey key) s = (inr (Some bucket), s1) → 0 ≤ tokens bucket) →
  exec st (limit cfg now key) s = (inr r, s', calls) →
  allowed r = false →
  ∃ seconds, retryAfter r = Some seconds ∧ 1 ≤ seconds.
Proof.
  intros Hmax Hrate Hint Hstored. rewrite exec_limit.
  destruct (store_get st (bucketKey key) s) as [[e|data] s1] eqn:Hget; [done|].
  cbn zeta.
  assert (Hnonneg : 0 ≤ tokens (loaded cfg now data)).
  { destruct data as [bucket|]; cbn; [by eapply Hstored | lia]. }
  set (bucket0 := loaded cfg now data) in *.
  destruct (Z.leb_spec 1 (tokens (refilled cfg now bucket0))) as [Hge|Hlt].
  { destruct (store_set st _ _ _ s1) as [[?|[]] ?]; [done|].
    by intros [= <- <- <-]. }
  intros [= <- <- <-] _. eexists. split; [done|].
  apply ceil_div_pos; [lia|].
  assert (Hnone : ¬ (0 < floor_div (now - lastRefill bucket0) (refillInterval cfg))).
  { intros Hpos. unfold refilled in Hlt. cbn zeta in Hlt.
    apply Z.ltb_lt in Hpos as Hpos'. rewrite Hpos' in Hlt. cbn in Hlt.
    assert (1 ≤ floor_div (now - lastRefill bucket0) (refillInterval cfg)
                * refillRate cfg) by nia.
    lia. }
  rewrite floor_div_pos_iff in Hnone by lia. lia.
Qed.

End distributed.

(** C7 fails as stated: after five allowed calls at [t = 0] under the test
    configuration the sixth is denied, and the only call it makes on the
    store is the read; nothing is written back. *)
Lemma denied_call_writes_nothing :
  exec memStore (DistributedRateLimiter.limit testConfig 0 "user123")
    (store_run testConfig (replicate 5 (EvLimit 0 "user123")) ∅)
  = (inr {| allowed := false; remaining := 0; resetAt := 1000;
            retryAfter := Some 1 |},
     store_run testConfig (replicate 5 (EvLimit 0 "user123")) ∅,
     [SGet "ratelimit:user123"]).
Proof. vm_compute. reflexivity. Qed.

Lemma state_written_back_when_allowed_witness :
  ∃ data s1,
    store_get memStore (DistributedRateLimiter.bucketKey "user123") ∅
    = (inr data, s1)
    ∧ let bucket :=
        DistributedRateLimiter.refilled testConfig 0
          (DistributedRateLimiter.loaded testConfig 0 data) in
      1 ≤ tokens bucket
      ∧ store_set memStore (DistributedRateLimiter.bucketKey "user123")
          (consumed bucket) (2 * refillInterval testConfig) s1
        = (inr (), {["ratelimit:user123" := ({| tokens := 4; lastRefill := 0 |}, 2000)]})
      ∧ [SGet "ratelimit:user123";
         SSet "ratelimit:user123" {| tokens := 4; lastRefill := 0 |} 2000]
        = [SGet (DistributedRateLimiter.bucketKey "user123");
           SSet (DistributedRateLimiter.bucketKey "user123") (consumed bucket)
             (2 * refillInterval testConfig)].
Proof.
  apply (state_written_back_when_allowed memStore testConfig 0 "user123" ∅
           {| allowed := true; remaining := 4; resetAt := 1000; retryAfter := None |}).
  vm_compute. reflexivity.
Defined.

(** C8 fails as stated: with a store that cannot be reached the call
    rejects with the store's error, and with a store that refuses writes the
    first call of a key, which would be allowed, rejects as well. *)
Lemma unreachable_store_rejects :
  exec downStore (DistributedRateLimiter.limit testConfig 0 "user123") ∅
  = (inl (StoreFailure "ECONNREFUSED"), ∅, [SGet "ratelimit:user123"])
  ∧ (exec readOnlyStore (DistributedRateLimiter.limit testConfig 0 "user123") ∅).1.1
    = inl (StoreFailure "READONLY").
Proof. split; vm_compute; reflexivity. Qed.

Lemma store_failure_reaches_caller_witness :
  (exec downStore (DistributedRateLimiter.limit testConfig 0 "user123") ∅).1
  = (inl (StoreFailure "ECONNREFUSED"), ∅)
  ∧ handle (inl (StoreFailure "ECONNREFUSED"))
    = (Next, [StoreFailure "ECONNREFUSED"])
  ∧ (∀ limiter t req,
       createRateLimitMiddleware limiter t req = (Next, [NotImplemented], limiter)).
Proof.
  apply (store_failure_reaches_caller downStore testConfig 0 "user123" ∅).
  left. reflexivity.
Defined.

(** C10 fails as stated: with [maxTokens = 1], [refillRate = 1] and a refill
    interval of -1000 ms, a call at [t = 0] that finds a stored bucket with
    no token, last refilled at [t = 0], is denied with [retryAfter = -1]. *)
Lemma negative_interval_retry :
  exec memStore
    (DistributedRateLimiter.limit
       {| maxTokens := 1; refillRate := 1; refillInterval := -1000 |}
       0 "user123")
    {["ratelimit:user123" := ({| tokens := 0; lastRefill := 0 |}, 2000)]}
  = (inr {| allowed := false; remaining := 0; resetAt := -1000;
            retryAfter := Some (-1) |},
     {["ratelimit:user123" := ({| tokens := 0; lastRefill := 0 |}, 2000)]},
     [SGet "ratelimit:user123"]).
Proof. vm_compute. reflexivity. Qed.

Lemma denial_retries_after_a_second_witness :
  ∃ seconds, Some 1 = Some seconds ∧ 1 ≤ seconds.
Proof.
  apply (denial_retries_after_a_second memStore testConfig 0 "user123"
           {["ratelimit:user123" := ({| tokens := 0; lastRefill := 0 |}, 2000)]}
           {| allowed := false; remaining := 0; resetAt := 1000;
              retryAfter := Some 1 |}
           {["ratelimit:user123" := ({| tokens := 0; lastRefill := 0 |}, 2000)]}
           [SGet "ratelimit:user123"]).
  - cbn. lia.
  - cbn. lia.
  - cbn. lia.
  - intros bucket s1. vm_compute. intros [= <- _]. discriminate.
  - vm_compute. reflexivity.
  - reflexivity.
Defined.

Lemma limit_leaves_no_stale_entry_witness :
  Forall (λ e, ¬ (timestamp e ≤ 700 - 1000))
    (SlidingWindowRateLimiter.log "user123"
       (SlidingWindowRateLimiter.limit 700 "user123"
          (SlidingWindowRateLimiter.run [(0, "user123"); (600, "user123")]
             (SlidingWindowRateLimiter.fresh 1000 2))).2).
Proof.
  apply Forall_forall.
  apply (limit_leaves_no_stale_entry 1000 2 [(0, "user123"); (600, "user123")]
           700 "user123").
  lia.
Defined.

(** ** The capacity bound *)

Lemma refillTokens_ok cfg now bucket :
  0 ≤ maxTokens cfg → 0 ≤ refillRate cfg →
  bucket_ok cfg bucket → bucket_ok cfg (RateLimiter.refillTokens cfg now bucket).
Proof.
  intros Hmax Hrate [Hlo Hhi]. unfold RateLimiter.refillTokens, bucket_ok.
  cbn zeta. destruct (Z.ltb_spec 0 (floor_div (now - lastRefill bucket)
                                      (refillInterval cfg))) as [Hpos|]; [|done].
  cbn. split; [|apply Z.le_min_l].
  apply Z.min_glb; [done|]. nia.
Qed.

Lemma step_config self c :
  RateLimiter.config (RateLimiter.step self c) = RateLimiter.config self.
Proof.
  destruct c as [now key n|now key| | |]; cbn; try done.
  by rewrite getStatus_frame.
Qed.

Lemma step_buckets_ok self c : buckets_ok self → buckets_ok (RateLimiter.step self c).
Proof.
  intros Hok. destruct c as [now key n|now key|key|now|]; cbn.
  - done.
  - by rewrite getStatus_frame.
  - by apply map_Forall_delete.
  - unfold buckets_ok. cbn. intros key bucket [Hin _]%map_lookup_filter_Some.
    by apply (Hok key).
  - apply map_Forall_empty.
Qed.

Lemma run_buckets_ok cs self :
  buckets_ok self →
  buckets_ok (RateLimiter.run cs self)
  ∧ RateLimiter.config (RateLimiter.run cs self) = RateLimiter.config self.
Proof.
  revert self. induction cs as [|c cs IH]; intros self Hok; [done|].
  change (RateLimiter.run (c :: cs) self)
    with (RateLimiter.run cs (RateLimiter.step self c)).
  destruct (IH (RateLimiter.step self c)) as [Hok' Hcfg].
  { by apply step_buckets_ok. }
  split; [done|]. by rewrite Hcfg, step_config.
Qed.

Lemma getStatus_remaining_ok now key self :
  0 ≤ maxTokens (RateLimiter.config self) →
  0 ≤ refillRate (RateLimiter.config self) →
  buckets_ok self →
  0 ≤ remaining (RateLimiter.getStatus now key self).1
    ≤ maxTokens (RateLimiter.config self).
Proof.
  intros Hmax Hrate Hok. unfold RateLimiter.getStatus.
  destruct (RateLimiter.buckets self !! key) as [bucket|] eqn:Hkey; cbn; [|lia].
  by apply refillTokens_ok, (Hok key).
Qed.

Lemma loaded_ok cfg now (s : StoreState) storeKey :
  0 ≤ maxTokens cfg → store_ok cfg s →
  bucket_ok cfg (DistributedRateLimiter.loaded cfg now (fst <$> s !! storeKey)).
Proof.
  intros Hmax Hok. destruct (s !! storeKey) as [[bucket ttl]|] eqn:Hkey; cbn.
  - apply (Hok _ _ Hkey).
  - unfold bucket_ok. cbn. lia.
Qed.

Lemma store_step_ok cfg s ev :
  0 ≤ maxTokens cfg → 0 ≤ refillRate cfg →
  store_ok cfg s → store_ok cfg (store_step cfg s ev).
Proof.
  intros Hmax Hrate Hok. destruct ev as [now key|storeKey]; cbn [store_step].
  - rewrite exec_limit. cbn [store_get store_set memStore]. cbn zeta.
    pose proof (loaded_ok cfg now s (DistributedRateLimiter.bucketKey key) Hmax Hok)
      as Hloaded.
    apply (refillTokens_ok cfg now _ Hmax Hrate) in Hloaded.
    rewrite <- refill_step_same in Hloaded.
    destruct (Z.leb_spec 1 (tokens (DistributedRateLimiter.refilled cfg now
      (DistributedRateLimiter.loaded cfg now
         (fst <$> s !! DistributedRateLimiter.bucketKey key))))) as [Hge|]; [|done].
    cbn. apply map_Forall_insert_2; [|done].
    unfold bucket_ok in *. cbn. lia.
  - by apply map_Forall_delete.
Qed.

Lemma store_run_ok cfg evs s :
  0 ≤ maxTokens cfg → 0 ≤ refillRate cfg →
  store_ok cfg s → store_ok cfg (store_run cfg evs s).
Proof.
  intros Hmax Hrate. revert s.
  induction evs as [|ev evs IH]; intros s Hok; [done|].
  change (store_run cfg (ev :: evs) s) with (store_run cfg evs (store_step cfg s ev)).
  by apply IH, store_step_ok.
Qed.

Lemma limit_remaining_ok cfg now key s r :
  0 ≤ maxTokens cfg → 0 ≤ refillRate cfg → store_ok cfg s →
  (exec memStore (DistributedRateLimiter.limit cfg now key) s).1.1 = inr r →
  0 ≤ remaining r ≤ maxTokens cfg.
Proof.
  intros Hmax Hrate Hok. rewrite exec_limit.
  cbn [store_get store_set memStore]. cbn zeta.
  pose proof (loaded_ok cfg now s (DistributedRateLimiter.bucketKey key) Hmax Hok)
    as Hloaded.
  apply (refillTokens_ok cfg now _ Hmax Hrate) in Hloaded.
  rewrite <- refill_step_same in Hloaded.
  destruct (Z.leb_spec 1 (tokens (DistributedRateLimiter.refilled cfg now
    (DistributedRateLimiter.loaded cfg now
       (fst <$> s !! DistributedRateLimiter.bucketKey key))))) as [Hge|];
    cbn; intros [= <-]; cbn; unfold bucket_ok in *; lia.
Qed.

(** C3.  Under a configuration with positive [maxTokens], [refillRate] and
    [refillInterval], the token count stays within [0] and [maxTokens]:
    a bucket is created full; a refill keeps a bucket within the bounds;
    any sequence of calls on an in-memory limiter whose buckets are within
    the bounds (a new one has none) leaves them within the bounds, and every
    status check reports a [remaining] within them; any sequence of
    store-backed [limit] calls and expiries on a store whose buckets are
    within the bounds (an empty one has none) leaves them within the bounds,
    every call returns a [remaining] within them, and a call consumes a
    token only from a bucket that holds at least one. *)
Theorem capacity_invariant cfg :
  valid_config cfg →
  (∀ now, tokens (DistributedRateLimiter.loaded cfg now None) = maxTokens cfg)
  ∧ (∀ now bucket,
       bucket_ok cfg bucket →
       bucket_ok cfg (RateLimiter.refillTokens cfg now bucket)
       ∧ bucket_ok cfg (DistributedRateLimiter.refilled cfg now bucket))
  ∧ (∀ limiter, RateLimiter.constructor cfg = inr limiter → buckets_ok limiter)
  ∧ (∀ cs self key bucket,
       RateLimiter.config self = cfg → buckets_ok self →
       RateLimiter.buckets (RateLimiter.run cs self) !! key = Some bucket →
       0 ≤ tokens bucket ≤ maxTokens cfg)
  ∧ (∀ cs self now key,
       RateLimiter.config self = cfg → buckets_ok self →
       0 ≤ remaining (RateLimiter.getStatus now key (RateLimiter.run cs self)).1
         ≤ maxTokens cfg)
  ∧ store_ok cfg ∅
  ∧ (∀ evs s storeKey bucket ttl,
       store_ok cfg s →
       store_run cfg evs s !! storeKey = Some (bucket, ttl) →
       0 ≤ tokens bucket ≤ maxTokens cfg)
  ∧ (∀ evs s now key r,
       store_ok cfg s →
       (exec memStore (DistributedRateLimiter.limit cfg now key)
          (store_run cfg evs s)).1.1 = inr r →
       0 ≤ remaining r ≤ maxTokens cfg)
  ∧ (∀ (s : StoreState) now key r s' calls,
       exec memStore (DistributedRateLimiter.limit cfg now key) s = (inr r, s', calls) →
       allowed r = true →
       ∃ bucket,
         1 ≤ tokens bucket
         ∧ s' !! DistributedRateLimiter.bucketKey key
           = Some (consumed bucket, refillInterval cfg * 2)).
Proof.
  intros (Hmax & Hrate & Hint).
  assert (Hmax0 : 0 ≤ maxTokens cfg) by lia.
  assert (Hrate0 : 0 ≤ refillRate cfg) by lia.
  split_and!.
  - done.
  - intros now bucket Hok. split; [|change (DistributedRateLimiter.refilled cfg now bucket)
                                     with (RateLimiter.refillTokens cfg now bucket)];
      by apply refillTokens_ok.
  - intros limiter [= <-]. apply map_Forall_empty.
  - intros cs self key bucket Hcfg Hok Hkey.
    destruct (run_buckets_ok cs self Hok) as [Hok' Hcfg'].
    specialize (Hok' key bucket Hkey). by rewrite Hcfg', Hcfg in Hok'.
  - intros cs self now key Hcfg Hok.
    destruct (run_buckets_ok cs self Hok) as [Hok' Hcfg'].
    rewrite <- Hcfg, <- Hcfg'. apply getStatus_remaining_ok; [| |done].
    + by rewrite Hcfg', Hcfg.
    + by rewrite Hcfg', Hcfg.
  - apply map_Forall_empty.
  - intros evs s storeKey bucket ttl Hok Hkey.
    apply (store_run_ok cfg evs s Hmax0 Hrate0 Hok _ _ Hkey).
  - intros evs s now key r Hok. apply limit_remaining_ok; [done..|].
    by apply store_run_ok.
  - intros s now key r s' calls Hexec Hallowed.
    rewrite exec_limit in Hexec. cbn [store_get store_set memStore] in Hexec.
    cbn zeta in Hexec.
    destruct (Z.leb_spec 1 (tokens (DistributedRateLimiter.refilled cfg now
      (DistributedRateLimiter.loaded cfg now
         (fst <$> s !! DistributedRateLimiter.bucketKey key))))) as [Hge|].
    + injection Hexec as <- <- <-. eexists. split; [exact Hge|].
      by rewrite lookup_insert_eq.
    + injection Hexec as <- <- <-. discriminate Hallowed.
Qed.

Lemma capacity_invariant_witness :
  bucket_ok testConfig
    (RateLimiter.refillTokens testConfig 9000 {| tokens := 3; lastRefill := 0 |})
  ∧ store_ok testConfig (store_run testConfig (replicate 6 (EvLimit 0 "user123")) ∅).
Proof.
  assert (Hvalid : valid_config testConfig) by (unfold valid_config; cbn; lia).
  destruct (capacity_invariant testConfig Hvalid)
    as (_ & Hrefill & _ & _ & _ & Hempty & Hstore & _).
  split.
  - apply Hrefill. unfold bucket_ok. cbn. lia.
  - intros storeKey [bucket ttl] Hkey. by apply (Hstore _ _ _ _ _ Hempty Hkey).
Defined.

(** ** The scenarios of the test suite, run *)

(** Scenario 1 on the store-backed limiter, whose [limit] is written out:
    five calls at [t = 0] are allowed with 4, 3, 2, 1, 0 tokens left and
    the sixth is denied. *)
Example store_backed_scenario_1 :
  verdict <$> limit_outcomes testConfig (replicate 6 (0, "user123")) ∅
  = [Some (true, 4); Some (true, 3); Some (true, 2); Some (true, 1);
     Some (true, 0); Some (false, 0)].
Proof. vm_compute. reflexivity. Qed.

(** The same six calls through the in-memory limiter: each one throws. *)
Example in_memory_scenario_1 :
  (λ now, (RateLimiter.limit_default now "user123"
             {| RateLimiter.buckets := ∅; RateLimiter.config := testConfig;
                RateLimiter.cleanupInterval := true |}).1) <$> replicate 6 0
  = replicate 6 (inl NotImplemented).
Proof. reflexivity. Qed.

(** Scenario 3: a window of 60000 ms for 10 requests lets 10 calls
    in immediate succession through and denies the 11th, to be retried
    after 60 seconds. *)
Example sliding_window_scenario_3 :
  window_outcomes (replicate 11 (0, "sliding-user"))
    (SlidingWindowRateLimiter.fresh 60000 10)
  = ((λ left, inr {| allowed := true; remaining := left; resetAt := 60000;
                     retryAfter := None |}) <$> [9; 8; 7; 6; 5; 4; 3; 2; 1; 0])
    ++ [inr {| allowed := false; remaining := 0; resetAt := 60000;
               retryAfter := Some 60 |}].
Proof. vm_compute. reflexivity. Qed.

(** A limiter with [maxRequests = 0] throws on its first call: no
    entry survives, and the denial reads the timestamp of the oldest one. *)
Example sliding_window_no_request_allowed :
  SlidingWindowRateLimiter.limit 0 "user123" (SlidingWindowRateLimiter.fresh 60000 0)
  = (inl TypeError, SlidingWindowRateLimiter.fresh 60000 0).
Proof. reflexivity. Qed.

(** An entry stamped exactly [now - windowSize] frees its slot. *)
Example sliding_window_boundary_entry :
  verdict <$> window_outcomes [(0, "user123"); (999, "user123"); (1000, "user123")]
                (SlidingWindowRateLimiter.fresh 1000 1)
  = [Some (true, 0); Some (false, 0); Some (true, 0)].
Proof. vm_compute. reflexivity. Qed.

(** * Further properties of the limiters *)

(** ** The in-memory token bucket: reset, clean-up, status *)

Lemma getStatus_absent now key self :
  RateLimiter.buckets self !! key = None →
  (RateLimiter.getStatus now key self).1
  = {| allowed := true;
       remaining := maxTokens (RateLimiter.config self);
       resetAt := now + refillInterval (RateLimiter.config self);
       retryAfter := None |}.
Proof. intros H. unfold RateLimiter.getStatus. by rewrite H. Qed.

Lemma getStatus_same_bucket now key self1 self2 :
  RateLimiter.config self1 = RateLimiter.config self2 →
  RateLimiter.buckets self1 !! key = RateLimiter.buckets self2 !! key →
  (RateLimiter.getStatus now key self1).1 = (RateLimiter.getStatus now key self2).1.
Proof.
  intros Hcfg Hkey. unfold RateLimiter.getStatus. rewrite Hkey, Hcfg.
  by destruct (RateLimiter.buckets self2 !! key).
Qed.

(** X1.  [reset(key)] forgets the bucket of [key] only: whatever the bucket
    held, the next status check of [key] reports a full bucket, and the
    status of every other key is what it was.  [destroy()] does the first
    for every key. *)
Theorem reset_restores_full_capacity now key other self :
  (RateLimiter.getStatus now key (RateLimiter.reset key self)).1
  = {| allowed := true;
       remaining := maxTokens (RateLimiter.config self);
       resetAt := now + refillInterval (RateLimiter.config self);
       retryAfter := None |}
  ∧ (other ≠ key →
       (RateLimiter.getStatus now other (RateLimiter.reset key self)).1
       = (RateLimiter.getStatus now other self).1)
  ∧ (RateLimiter.getStatus now key (RateLimiter.destroy self)).1
    = {| allowed := true;
         remaining := maxTokens (RateLimiter.config self);
         resetAt := now + refillInterval (RateLimiter.config self);
         retryAfter := None |}.
Proof.
  split_and!.
  - rewrite getStatus_absent; [done|]. cbn. apply lookup_delete_eq.
  - intros Hne. apply getStatus_same_bucket; [done|].
    cbn. by apply lookup_delete_ne.
  - by rewrite getStatus_absent.
Qed.

Lemma cleanup_lookup now key self :
  RateLimiter.buckets (RateLimiter.cleanup now self) !! key
  = match RateLimiter.buckets self !! key with
    | Some bucket =>
        if decide (lastRefill bucket < now - 300000) then None else Some bucket
    | None => None
    end.
Proof.
  unfold RateLimiter.cleanup. cbn. rewrite map_lookup_filter.
  destruct (RateLimiter.buckets self !! key) as [bucket|]; [|done]. cbn.
  change (5 * 60 * 1000) with 300000.
  destruct (decide (lastRefill bucket < now - 300000)) as [Hold|Hnew].
  - rewrite option_guard_False; [done|]. by intros H; apply H.
  - by rewrite option_guard_True.
Qed.

(** X2.  [cleanup()] at [now] evicts exactly the buckets last refilled more
    than five minutes (300000 ms) before [now]; a bucket refilled exactly
    five minutes before stays.  The status of a key whose bucket stays, or
    that had none, is unchanged; a key whose bucket is evicted is reported
    with a full bucket from then on.  A later clean-up subsumes an earlier
    one. *)
Theorem cleanup_evicts_idle_buckets now later key self :
  (∀ bucket,
     RateLimiter.buckets self !! key = Some bucket →
     now - 300000 ≤ lastRefill bucket →
     RateLimiter.buckets (RateLimiter.cleanup now self) !! key = Some bucket)
  ∧ (∀ bucket,
       RateLimiter.buckets self !! key = Some bucket →
       lastRefill bucket < now - 300000 →
       ∀ t, remaining (RateLimiter.getStatus t key (RateLimiter.cleanup now self)).1
            = maxTokens (RateLimiter.config self))
  ∧ ((∀ bucket, RateLimiter.buckets self !! key = Some bucket →
                now - 300000 ≤ lastRefill bucket) →
     ∀ t, (RateLimiter.getStatus t key (RateLimiter.cleanup now self)).1
          = (RateLimiter.getStatus t key self).1)
  ∧ (now ≤ later →
     RateLimiter.cleanup later (RateLimiter.cleanup now self)
     = RateLimiter.cleanup later self).
Proof.
  split_and!.
  - intros bucket Hkey Hnew. rewrite cleanup_lookup, Hkey.
    by rewrite decide_False by lia.
  - intros bucket Hkey Hold t. rewrite getStatus_absent; [done|].
    rewrite cleanup_lookup, Hkey. by rewrite decide_True.
  - intros Hnew t. apply getStatus_same_bucket; [done|].
    rewrite cleanup_lookup.
    destruct (RateLimiter.buckets self !! key) as [bucket|] eqn:Hkey; [|done].
    specialize (Hnew bucket eq_refl). by rewrite decide_False by lia.
  - intros Hle.
    assert (Hb : RateLimiter.buckets (RateLimiter.cleanup later (RateLimiter.cleanup now self))
                 = RateLimiter.buckets (RateLimiter.cleanup later self)).
    { apply map_eq. intros k. rewrite !cleanup_lookup.
      destruct (RateLimiter.buckets self !! k) as [bucket|]; [|done].
      destruct (decide (lastRefill bucket < now - 300000)); [|done].
      by rewrite decide_True by lia. }
    unfold RateLimiter.cleanup, RateLimiter.with_buckets in *. cbn in *.
    by rewrite Hb.
Qed.

Lemma refill_tokens_monotone cfg t1 t2 bucket :
  0 < refillInterval cfg → 0 ≤ refillRate cfg →
  tokens bucket ≤ maxTokens cfg → t1 ≤ t2 →
  tokens (RateLimiter.refillTokens cfg t1 bucket)
  ≤ tokens (RateLimiter.refillTokens cfg t2 bucket).
Proof.
  intros Hint Hrate Hcap Hle. unfold RateLimiter.refillTokens, floor_div. cbn zeta.
  assert (Hdiv : (t1 - lastRefill bucket) / refillInterval cfg
                 ≤ (t2 - lastRefill bucket) / refillInterval cfg).
  { apply Z.div_le_mono; lia. }
  destruct (Z.ltb_spec 0 ((t1 - lastRefill bucket) / refillInterval cfg));
    destruct (Z.ltb_spec 0 ((t2 - lastRefill bucket) / refillInterval cfg));
    cbn; try lia; try (apply Z.min_le_compat_l; nia);
    try (apply Z.min_glb; [done|]; nia).
Qed.

(** X3.  With a positive refill interval and a non-negative refill rate,
    the [remaining] that [getStatus] reports for a key never goes down as
    the clock advances, as long as the limiter is not touched and the
    bucket of the key, if any, is within the capacity. *)
Theorem status_never_decreases_with_time t1 t2 key self :
  0 < refillInterval (RateLimiter.config self) →
  0 ≤ refillRate (RateLimiter.config self) →
  (∀ bucket, RateLimiter.buckets self !! key = Some bucket →
             tokens bucket ≤ maxTokens (RateLimiter.config self)) →
  t1 ≤ t2 →
  remaining (RateLimiter.getStatus t1 key self).1
  ≤ remaining (RateLimiter.getStatus t2 key self).1.
Proof.
  intros Hint Hrate Hcap Hle. unfold RateLimiter.getStatus.
  destruct (RateLimiter.buckets self !! key) as [bucket|]; cbn; [|lia].
  apply refill_tokens_monotone; auto.
Qed.

Lemma status_never_decreases_with_time_witness :
  remaining (RateLimiter.getStatus 500 "user123"
               {| RateLimiter.buckets :=
                    {["user123" := {| tokens := 0; lastRefill := 0 |}]};
                  RateLimiter.config := testConfig;
                  RateLimiter.cleanupInterval := true |}).1
  ≤ remaining (RateLimiter.getStatus 3000 "user123"
                 {| RateLimiter.buckets :=
                      {["user123" := {| tokens := 0; lastRefill := 0 |}]};
                    RateLimiter.config := testConfig;
                    RateLimiter.cleanupInterval := true |}).1.
Proof.
  apply status_never_decreases_with_time; cbn; try lia.
  intros bucket [_ <-]%lookup_singleton_Some. cbn. lia.
Defined.

(** ** The sliding window: what a call returns, and what it touches *)

Section sliding_window_results.
Import SlidingWindowRateLimiter.

(** X4.  Whatever the logs hold, a call that is denied returns
    [remaining = 0], a [resetAt] after [now] and a [retryAfter] of at least
    one second, the time to [resetAt] rounded up to a second, and leaves
    the limiter as it was; a call that is allowed returns no [retryAfter],
    a non-negative [remaining] and [resetAt = now + windowSize]. *)
Theorem window_result_shape now key self r :
  (limit now key self).1 = inr r →
  if allowed r then
    retryAfter r = None ∧ 0 ≤ remaining r ∧ resetAt r = now + windowSize self
  else
    remaining r = 0 ∧ now < resetAt r ∧ (limit now key self).2 = self
    ∧ ∃ seconds, retryAfter r = Some seconds ∧ 1 ≤ seconds
                 ∧ (seconds - 1) * 1000 < resetAt r - now ≤ seconds * 1000.
Proof.
  unfold limit. cbn zeta.
  set (kept := prune _ _).
  assert (Hkept : Forall (λ e, now - windowSize self < timestamp e) kept).
  { apply Forall_forall. by intros e [_ ?]%elem_of_prune. }
  destruct (Z.leb_spec (maxRequests self) (total kept)) as [Hfull|Hroom].
  - destruct kept as [|oldest rest]; [done|].
    intros [= <-]. cbn. apply Forall_cons_1 in Hkept as [Hold _].
    split_and!; [done|lia|done|].
    eexists. split; [done|]. unfold ceil_div.
    pose proof (Z.div_mod (- (timestamp oldest + windowSize self - now)) 1000).
    pose proof (Z.mod_pos_bound (- (timestamp oldest + windowSize self - now)) 1000).
    lia.
  - intros [= <-]. cbn. split_and!; [done|lia|done].
Qed.

Lemma window_result_shape_witness :
  remaining {| allowed := false; remaining := 0; resetAt := 1000;
               retryAfter := Some 1 |} = 0
  ∧ 999 < 1000
  ∧ (limit 999 "user123" (run [(0, "user123")] (fresh 1000 1))).2
    = run [(0, "user123")] (fresh 1000 1)
  ∧ ∃ seconds, Some 1 = Some seconds ∧ 1 ≤ seconds
               ∧ (seconds - 1) * 1000 < 1000 - 999 ≤ seconds * 1000.
Proof.
  apply (window_result_shape 999 "user123" (run [(0, "user123")] (fresh 1000 1))
           {| allowed := false; remaining := 0; resetAt := 1000;
              retryAfter := Some 1 |}).
  vm_compute. reflexivity.
Defined.

Lemma limit_other_log now key other self :
  other ≠ key → log other (limit now key self).2 = log other self.
Proof.
  intros Hne. unfold limit. cbn zeta.
  destruct (_ <=? _).
  - by destruct (prune _ _).
  - unfold log. cbn. by rewrite lookup_insert_ne.
Qed.

(** X5.  Keys do not interfere: a call for one key leaves the log of every
    other key as it was, and what a call for another key returns does not
    depend on whether the first call was made. *)
Theorem window_keys_independent t now key other self :
  other ≠ key →
  log other (limit t key self).2 = log other self
  ∧ (limit now other (limit t key self).2).1 = (limit now other self).1.
Proof.
  intros Hne. split; [by apply limit_other_log|].
  rewrite !limit_outcome. destruct (limit_settings t key self) as [-> ->].
  by rewrite limit_other_log.
Qed.

Lemma window_keys_independent_witness :
  log "bob" (limit 0 "alice" (fresh 1000 1)).2 = log "bob" (fresh 1000 1)
  ∧ (limit 5 "bob" (limit 0 "alice" (fresh 1000 1)).2).1
    = (limit 5 "bob" (fresh 1000 1)).1.
Proof. by apply window_keys_independent. Defined.

End sliding_window_results.

(** ** The sliding window: the rate it enforces *)

Section sliding_window_rate.
Import SlidingWindowRateLimiter.

Lemma run_app calls1 calls2 self :
  run (calls1 ++ calls2) self = run calls2 (run calls1 self).
Proof. unfold run. apply foldl_app. Qed.

Lemma window_allowed_times_app key calls1 calls2 self :
  window_allowed_times key (calls1 ++ calls2) self
  = window_allowed_times key calls1 self
    ++ window_allowed_times key calls2 (run calls1 self).
Proof.
  revert self. induction calls1 as [|[t k] calls1 IH]; intros self; [done|].
  cbn [app window_allowed_times]. rewrite run_cons. cbn [fst snd].
  destruct (limit t k self) as [r self1]. cbn [snd].
  by rewrite IH, (assoc_L (++)).
Qed.

Lemma prune_prune now t size entries :
  t ≤ now → prune (now - size) (prune (t - size) entries) = prune (now - size) entries.
Proof.
  intros Hle. unfold prune. rewrite list_filter_filter.
  apply list_filter_iff. intros e. lia.
Qed.

Lemma log_fresh key size maxReq : log key (fresh size maxReq) = [].
Proof. unfold log, fresh. cbn. by rewrite lookup_empty. Qed.

(** Under a clock that never goes back, the entries of the log of a key
    that are still in the window are the allowed calls of the key that are
    still in the window, in call order. *)
Lemma log_tracks_allowed_calls size maxReq key calls :
  StronglySorted Z.le calls.*1 →
  ∀ now, Forall (λ t, t ≤ now) calls.*1 →
    timestamp <$> prune (now - size) (log key (run calls (fresh size maxReq)))
    = filter (λ t, now - size < t)
        (window_allowed_times key calls (fresh size maxReq)).
Proof.
  induction calls as [|[t k] calls IH] using rev_ind; intros Hsorted now Hnow.
  { change (run [] (fresh size maxReq)) with (fresh size maxReq).
    by rewrite log_fresh. }
  rewrite fmap_app in Hsorted, Hnow. cbn in Hsorted, Hnow.
  apply StronglySorted_app in Hsorted as (Hbefore & Hcalls & _).
  apply Forall_app in Hnow as [Hnow Ht]. apply Forall_cons_1 in Ht as [Ht _].
  assert (Hbefore' : Forall (λ t', t' ≤ t) calls.*1).
  { apply Forall_forall. intros t' Ht'. apply (Hbefore t' t Ht'). by left. }
  specialize (IH Hcalls).
  rewrite run_app, window_allowed_times_app. cbn [window_allowed_times].
  set (self := run calls (fresh size maxReq)) in *.
  change (run [(t, k)] self) with (limit t k self).2.
  destruct (limit t k self) as [r self1] eqn:Hlimit. cbn [snd].
  rewrite app_nil_r, filter_app, <- (IH now Hnow).
  destruct (decide (k = key)) as [->|Hne].
  2:{ rewrite bool_decide_eq_false_2 by done. cbn [andb]. rewrite filter_nil, app_nil_r.
      replace self1 with (limit t k self).2 by by rewrite Hlimit.
      by rewrite limit_other_log. }
  rewrite bool_decide_eq_true_2 by done. cbn [andb].
  revert Hlimit. unfold limit. cbn zeta.
  fold (log key self).
  destruct (Z.leb_spec (maxRequests self) (total (prune (t - windowSize self) (log key self))))
    as [Hfull|Hroom].
  - intros Hlimit.
    assert (Hsame : self1 = self ∧ is_allowed r = false).
    { destruct (prune (t - windowSize self) (log key self));
        injection Hlimit as <- <-; done. }
    destruct Hsame as [-> ->]. by rewrite filter_nil, app_nil_r.
  - intros [= <- <-]. cbn [is_allowed allowed].
    unfold log at 1. cbn [windows]. rewrite lookup_insert_eq. cbn [default].
    change (from_option id [] (Some ?l)) with l.
    assert (Hsize : windowSize self = size)
      by apply (run_settings calls (fresh size maxReq)).
    rewrite Hsize. unfold id.
    assert (Happ : ∀ l1 l2, prune (now - size) (l1 ++ l2)
                            = prune (now - size) l1 ++ prune (now - size) l2).
    { intros l1 l2. unfold prune. apply filter_app. }
    rewrite Happ, prune_prune by done. rewrite fmap_app. f_equal.
    unfold prune. rewrite !filter_cons, !filter_nil. cbn [timestamp].
    by destruct (decide (now - size < t)).
Qed.

(** X6.  Under a clock that never goes back, a call of a key is allowed
    only when fewer than [maxRequests] of the calls of that key allowed so
    far were made within the last [windowSize] milliseconds. *)
Theorem window_admits_below_maxRequests size maxReq calls now key r :
  StronglySorted Z.le (calls.*1 ++ [now]) →
  (limit now key (run calls (fresh size maxReq))).1 = inr r →
  allowed r = true →
  Z.of_nat (length (filter (λ t, now - size < t)
                      (window_allowed_times key calls (fresh size maxReq))))
  < maxReq.
Proof.
  intros Hsorted Hr Hallowed.
  apply StronglySorted_app in Hsorted as (Hbefore & Hcalls & _).
  assert (Hnow : Forall (λ t, t ≤ now) calls.*1).
  { apply Forall_forall. intros t Ht. apply (Hbefore t now Ht). by left. }
  rewrite <- (log_tracks_allowed_calls size maxReq key calls Hcalls now Hnow).
  rewrite length_fmap.
  set (self := run calls (fresh size maxReq)) in *.
  assert (Hset : windowSize self = size ∧ maxRequests self = maxReq)
    by apply (run_settings calls (fresh size maxReq)).
  destruct Hset as [Hsize Hmax].
  assert (Hok : windows_ok self).
  { apply run_windows_ok. unfold windows_ok, fresh. cbn. apply map_Forall_empty. }
  assert (Hones : Forall (λ e, count e = 1) (log key self)).
  { unfold log. destruct (windows self !! key) as [entries|] eqn:Hkey; [|done].
    by destruct (Hok _ _ Hkey). }
  rewrite limit_outcome in Hr. cbn zeta in Hr. rewrite Hsize, Hmax in Hr.
  rewrite <- (total_ones (prune (now - size) (log key self)))
    by by apply prune_ones.
  destruct (Z.leb_spec maxReq (total (prune (now - size) (log key self))))
    as [Hfull|Hroom]; [|done].
  destruct (prune _ _); [done|]. injection Hr as <-. done.
Qed.

Lemma window_admits_below_maxRequests_witness :
  Z.of_nat (length (filter (λ t, 1500 - 1000 < t)
                      (window_allowed_times "user123"
                         [(0, "user123"); (600, "user123"); (700, "user123")]
                         (fresh 1000 2))))
  < 2.
Proof.
  apply (window_admits_below_maxRequests 1000 2
           [(0, "user123"); (600, "user123"); (700, "user123")] 1500 "user123"
           {| allowed := true; remaining := 0; resetAt := 2500; retryAfter := None |}).
  - cbn. repeat (apply SSorted_cons || apply SSorted_nil || apply Forall_cons_2
                 || apply Forall_nil_2 || lia).
  - vm_compute. reflexivity.
  - reflexivity.
Defined.

End sliding_window_rate.

(** ** The store-backed token bucket on a store that answers *)

Section answering_store.
Import DistributedRateLimiter.

Lemma bucketKey_inj key1 key2 : bucketKey key1 = bucketKey key2 → key1 = key2.
Proof. unfold bucketKey. intros H. by simplify_eq/=. Qed.

(** [limit] on the answering store, step by step. *)
Lemma exec_limit_mem cfg now key (s : StoreState) :
  exec memStore (limit cfg now key) s
  = let bucket := refilled cfg now (loaded cfg now (fst <$> s !! bucketKey key)) in
    if 1 <=? tokens bucket then
      (inr {| allowed := true;
              remaining := tokens bucket - 1;
              resetAt := lastRefill bucket + refillInterval cfg;
              retryAfter := None |},
       <[bucketKey key := (consumed bucket, refillInterval cfg * 2)]> s,
       [SGet (bucketKey key);
        SSet (bucketKey key) (consumed bucket) (refillInterval cfg * 2)])
    else
      (inr {| allowed := false;
              remaining := 0;
              resetAt := lastRefill bucket + refillInterval cfg;
              retryAfter :=
                Some (ceil_div
                        (refillInterval cfg
                         - (now - lastRefill
                                    (loaded cfg now (fst <$> s !! bucketKey key))))
                        1000) |},
       s, [SGet (bucketKey key)]).
Proof.
  rewrite exec_limit. cbn [store_get store_set memStore]. cbn zeta.
  by destruct (1 <=? _).
Qed.

(** X7.  On a store that answers, a call for one key reads and writes the
    entry ["ratelimit:" + key] and no other: every other entry of the store
    is as it was, and what a call for another key returns does not depend
    on whether the first call was made. *)
Theorem store_keys_independent cfg t now key other (s : StoreState) :
  other ≠ key →
  (∀ storeKey, storeKey ≠ bucketKey key →
     (exec memStore (limit cfg t key) s).1.2 !! storeKey = s !! storeKey)
  ∧ (exec memStore (limit cfg now other)
       (exec memStore (limit cfg t key) s).1.2).1.1
    = (exec memStore (limit cfg now other) s).1.1.
Proof.
  intros Hne.
  assert (Hframe : ∀ storeKey, storeKey ≠ bucketKey key →
            (exec memStore (limit cfg t key) s).1.2 !! storeKey = s !! storeKey).
  { intros storeKey Hkey. rewrite exec_limit_mem. cbn zeta.
    destruct (1 <=? _); cbn; [|done]. by rewrite lookup_insert_ne. }
  split; [done|].
  rewrite (exec_limit_mem cfg now other s),
    (exec_limit_mem cfg now other (exec memStore (limit cfg t key) s).1.2).
  cbn zeta. rewrite Hframe.
  - by destruct (1 <=? _).
  - intros Heq. by apply Hne, bucketKey_inj.
Qed.

Lemma store_keys_independent_witness :
  (∀ storeKey, storeKey ≠ bucketKey "alice" →
     (exec memStore (limit testConfig 0 "alice") ∅).1.2 !! storeKey
     = (∅ : StoreState) !! storeKey)
  ∧ (exec memStore (limit testConfig 5 "bob")
       (exec memStore (limit testConfig 0 "alice") ∅).1.2).1.1
    = (exec memStore (limit testConfig 5 "bob") ∅).1.1.
Proof. by apply store_keys_independent. Defined.

(** X8.  With a positive refill interval, a call never moves the stored
    [lastRefill] of a key back: the bucket it leaves in the store carries
    the [lastRefill] it found or, after a refill, the clock reading of the
    call, which is then later by at least one interval. *)
Theorem stored_lastRefill_never_goes_back cfg now key (s : StoreState)
    bucket ttl bucket' ttl' :
  0 < refillInterval cfg →
  s !! bucketKey key = Some (bucket, ttl) →
  (exec memStore (limit cfg now key) s).1.2 !! bucketKey key = Some (bucket', ttl') →
  lastRefill bucket' = lastRefill bucket
  ∨ (lastRefill bucket' = now ∧ lastRefill bucket + refillInterval cfg ≤ now).
Proof.
  intros Hint Hkey. rewrite exec_limit_mem, Hkey. cbn zeta. cbn [fmap option_fmap option_map fst loaded].
  change (refilled cfg now bucket) with (RateLimiter.refillTokens cfg now bucket).
  assert (Hrefill :
    lastRefill (RateLimiter.refillTokens cfg now bucket) = lastRefill bucket
    ∨ (lastRefill (RateLimiter.refillTokens cfg now bucket) = now
       ∧ lastRefill bucket + refillInterval cfg ≤ now)).
  { destruct (Z_lt_le_dec (now - lastRefill bucket) (refillInterval cfg)).
    - left. by rewrite refillTokens_partial.
    - right. rewrite refillTokens_full by done. cbn. lia. }
  destruct (1 <=? _); cbn [fst snd].
  - rewrite lookup_insert_eq. by intros [= <- _].
  - rewrite Hkey. intros [= <- _]. by left.
Qed.

Lemma stored_lastRefill_never_goes_back_witness :
  lastRefill {| tokens := 2; lastRefill := 3500 |} = lastRefill {| tokens := 0; lastRefill := 0 |}
  ∨ (lastRefill {| tokens := 2; lastRefill := 3500 |} = 3500
     ∧ lastRefill {| tokens := 0; lastRefill := 0 |} + refillInterval testConfig ≤ 3500).
Proof.
  apply (stored_lastRefill_never_goes_back testConfig 3500 "user123"
           {["ratelimit:user123" := ({| tokens := 0; lastRefill := 0 |}, 2000)]}
           {| tokens := 0; lastRefill := 0 |} 2000
           {| tokens := 2; lastRefill := 3500 |} 2000).
  - cbn. lia.
  - reflexivity.
  - vm_compute. reflexivity.
Defined.

(** X9.  With [maxTokens], [refillRate] and [refillInterval] at least 1, a
    call for a key the store has no bucket of is allowed, and so is a call
    made a full interval or more after the [lastRefill] of the stored
    bucket (that is, at or after the [resetAt] a denial returned), if that
    bucket holds no negative count. *)
Theorem call_after_reset_is_allowed cfg now key (s : StoreState) :
  1 ≤ maxTokens cfg → 1 ≤ refillRate cfg → 1 ≤ refillInterval cfg →
  (∀ bucket ttl, s !! bucketKey key = Some (bucket, ttl) →
     0 ≤ tokens bucket ∧ lastRefill bucket + refillInterval cfg ≤ now) →
  ∃ r, (exec memStore (limit cfg now key) s).1.1 = inr r ∧ allowed r = true.
Proof.
  intros Hmax Hrate Hint Hstored. rewrite exec_limit_mem. cbn zeta.
  assert (Hge : 1 ≤ tokens (refilled cfg now (loaded cfg now (fst <$> s !! bucketKey key)))).
  { destruct (s !! bucketKey key) as [[bucket ttl]|] eqn:Hkey; cbn [fmap option_fmap option_map fst loaded].
    - destruct (Hstored bucket ttl eq_refl) as [Hnonneg Hwait].
      change (refilled cfg now bucket) with (RateLimiter.refillTokens cfg now bucket).
      rewrite refillTokens_full by lia. cbn.
      assert (0 < floor_div (now - lastRefill bucket) (refillInterval cfg))
        by (apply floor_div_pos_iff; lia).
      apply Z.min_glb; [done|]. nia.
    - unfold refilled. cbn. replace (now - now) with 0 by lia.
      unfold floor_div. rewrite Z.div_0_l by lia. cbn. lia. }
  apply Z.leb_le in Hge. rewrite Hge. by eexists.
Qed.

Lemma call_after_reset_is_allowed_witness :
  ∃ r, (exec memStore (limit testConfig 1000 "user123")
          {["ratelimit:user123" := ({| tokens := 0; lastRefill := 0 |}, 2000)]}).1.1
       = inr r ∧ allowed r = true.
Proof.
  apply call_after_reset_is_allowed; cbn; try lia.
  intros bucket ttl [_ [= <- _]]%lookup_singleton_Some. cbn. lia.
Defined.

End answering_store.

(** ** The store-backed token bucket: the rate it enforces *)

Section token_bucket_rate.
Import DistributedRateLimiter.






End token_bucket_rate.

(** * Properties of the tries *)

(** ** A [Map] as the list of its entries *)

Section js_map_facts.
Context {V : Type}.
Implicit Types (m : list (ascii * V)) (c : ascii) (v : V).

Lemma children_get_set_eq c v m : children_get c (children_set c v m) = Some v.
Proof.
  induction m as [|[c' x] m IH]; cbn.
  - by rewrite decide_True.
  - destruct (decide (c' = c)) as [->|Hne]; cbn.
    + by rewrite decide_True.
    + by rewrite decide_False.
Qed.

Lemma children_get_set_ne c c' v m :
  c' ≠ c → children_get c' (children_set c v m) = children_get c' m.
Proof.
  intros Hne. induction m as [|[c0 x] m IH]; cbn.
  - by rewrite decide_False.
  - destruct (decide (c0 = c)) as [->|Hc0]; cbn.
    + by rewrite !decide_False by done.
    + by rewrite IH.
Qed.

Lemma children_set_same c v m :
  children_get c m = Some v → children_set c v m = m.
Proof.
  induction m as [|[c0 x] m IH]; cbn; [done|].
  destruct (decide (c0 = c)) as [->|Hc0].
  - by intros [= ->].
  - intros H. by rewrite IH.
Qed.

Lemma children_get_Some c v m : children_get c m = Some v → (c, v) ∈ m.
Proof.
  induction m as [|[c0 x] m IH]; cbn; [done|].
  destruct (decide (c0 = c)) as [->|Hc0].
  - intros [= ->]. by left.
  - intros H. right. by apply IH.
Qed.

Lemma children_get_None c m : children_get c m = None → c ∉ m.*1.
Proof.
  induction m as [|[c0 x] m IH]; cbn.
  - intros _. apply not_elem_of_nil.
  - destruct (decide (c0 = c)) as [->|Hc0]; [done|].
    intros H. apply not_elem_of_cons. split; [done|]. by apply IH.
Qed.

Lemma children_get_unique c v m :
  NoDup m.*1 → (c, v) ∈ m → children_get c m = Some v.
Proof.
  induction m as [|[c0 x] m IH]; cbn.
  - intros _ H. by apply elem_of_nil in H.
  - intros [Hfresh Hnodup]%NoDup_cons [Hhead|Htail]%elem_of_cons.
    + injection Hhead as <- <-. by rewrite decide_True.
    + destruct (decide (c0 = c)) as [->|Hc0]; [|by apply IH].
      exfalso. apply Hfresh. apply list_elem_of_fmap. by exists (c, v).
Qed.

End js_map_facts.

(** ** Word counts *)

Section trie_with_count.
Import TrieWithCount.

Lemma fields_newNode word : fields (nodeAt newNode word) = (false, 0).
Proof. by destruct word. Qed.

Lemma getCountFrom_fields current word :
  getCountFrom current word
  = if (fields (nodeAt current word)).1 then (fields (nodeAt current word)).2 else 0.
Proof.
  revert current. induction word as [|c rest IH]; intros current; cbn; [done|].
  destruct (children_get c (childrenOf current)); [apply IH|done].
Qed.

Lemma fields_insert_same current word :
  fields (nodeAt (insertFrom current word) word)
  = (true, (fields (nodeAt current word)).2 + 1).
Proof.
  revert current. induction word as [|c rest IH]; intros current; cbn; [done|].
  rewrite children_get_set_eq, IH.
  destruct (children_get c (childrenOf current)); [done|].
  by rewrite fields_newNode.
Qed.

Lemma fields_insert_other current word other :
  other ≠ word →
  fields (nodeAt (insertFrom current word) other) = fields (nodeAt current other).
Proof.
  revert current other.
  induction word as [|c rest IH]; intros current [|c' other] Hne; cbn; try done.
  destruct (decide (c' = c)) as [->|Hc].
  - rewrite children_get_set_eq, IH by congruence.
    destruct (children_get c (childrenOf current)); [done|].
    by rewrite fields_newNode.
  - by rewrite children_get_set_ne.
Qed.

Lemma inserted_snoc words word :
  inserted (words ++ [word]) = insert word (inserted words).
Proof. unfold inserted. by rewrite foldl_app. Qed.

Lemma fields_inserted words word :
  fields (nodeAt (root (inserted words)) word)
  = (bool_decide (0 < length (filter (λ w, w = word) words))%nat,
     Z.of_nat (length (filter (λ w, w = word) words))).
Proof.
  induction words as [|w words IH] using rev_ind.
  { cbn. by destruct word. }
  rewrite inserted_snoc, filter_app, length_app. cbn [insert root].
  rewrite filter_cons, filter_nil.
  destruct (decide (w = word)) as [->|Hne].
  - rewrite fields_insert_same, IH. cbn [snd length]. f_equal.
    + symmetry. apply bool_decide_eq_true. lia.
    + lia.
  - rewrite fields_insert_other by done. rewrite IH. cbn [length].
    by rewrite Nat.add_0_r.
Qed.

(** X11.  After any list of words was inserted into a new [TrieWithCount],
    [getCount(word)] is the number of times the word is in the list: 0 for
    a word never inserted, the empty word and the prefixes of inserted
    words included. *)
Theorem getCount_counts_insertions (words : list Word) (word : Word) :
  getCount word (inserted words)
  = Z.of_nat (length (filter (λ w, w = word) words)).
Proof.
  unfold getCount. rewrite getCountFrom_fields, fields_inserted. cbn [fst snd].
  case_bool_decide; lia.
Qed.

End trie_with_count.

(** ** The words of a trie *)

Section trie_words.
Import Trie.

(** Induction on a node with the property in hand for its children. *)
Lemma TrieNode_children_ind (P : TrieNode → Prop) :
  (∀ e ch, Forall (λ entry, P entry.2) ch → P (Node e ch)) →
  ∀ node, P node.
Proof.
  intros Hnode. fix IH 1. intros [e ch]. apply Hnode.
  induction ch as [|entry ch IHch]; constructor; [apply IH|apply IHch].
Qed.

Lemma unique_keys_children e ch :
  unique_keys (Node e ch) ↔ NoDup ch.*1 ∧ Forall (λ entry, unique_keys entry.2) ch.
Proof.
  cbn [unique_keys]. apply and_iff_compat_l.
  induction ch as [|entry ch IH]; [by split; [constructor|]|].
  rewrite Forall_cons, <- IH. done.
Qed.

Lemma unique_keys_child c child node :
  unique_keys node → children_get c (children node) = Some child →
  unique_keys child.
Proof.
  destruct node as [e ch]. intros [_ Hall]%unique_keys_children Hget.
  apply children_get_Some in Hget. rewrite Forall_forall in Hall.
  apply (Hall (c, child) Hget).
Qed.

Lemma collect_children prefix words ch :
  Forall (λ entry, ∀ prefix words,
            collectWords entry.2 prefix words
            = words ++ ((prefix ++.) <$> words_of entry.2)) ch →
  foldl (λ words entry, collectWords entry.2 (prefix ++ [entry.1]) words) words ch
  = words ++ ((prefix ++.) <$>
                mjoin ((λ entry, (entry.1 ::.) <$> words_of entry.2) <$> ch)).
Proof.
  intros Hch. revert words.
  induction Hch as [|entry ch Hentry _ IH]; intros words; cbn.
  - by rewrite app_nil_r.
  - rewrite IH, Hentry, fmap_app, <- !(assoc_L (++)). do 2 f_equal.
    rewrite <- list_fmap_compose. apply list_fmap_ext. intros _ w _. cbn.
    by rewrite <- (assoc_L (++)).
Qed.

(** [collectWords] pushes the words below the node, each after the
    prefix, in order. *)
Lemma collectWords_spec node :
  ∀ prefix words,
    collectWords node prefix words = words ++ ((prefix ++.) <$> words_of node).
Proof.
  induction node as [e ch IH] using TrieNode_children_ind. intros prefix words.
  cbn [collectWords words_of]. rewrite collect_children by done.
  rewrite fmap_app, (assoc_L (++)). f_equal.
  destruct e; cbn; by rewrite ?app_nil_r.
Qed.

Lemma getAllWords_words_of self : getAllWords self = words_of (root self).
Proof.
  unfold getAllWords. rewrite collectWords_spec. cbn.
  rewrite <- (list_fmap_id (words_of (root self))) at 2.
  by apply list_fmap_ext.
Qed.

Lemma count_children (acc : Z) ch :
  Forall (λ entry, countWordsHelper entry.2
                   = Z.of_nat (length (words_of entry.2))) ch →
  foldl (λ count entry, count + countWordsHelper entry.2) acc ch
  = acc + Z.of_nat (length (mjoin ((λ entry, (entry.1 ::.) <$> words_of entry.2)
                                     <$> ch))).
Proof.
  intros Hch. revert acc.
  induction Hch as [|entry ch Hentry _ IH]; intros acc; cbn.
  - lia.
  - rewrite IH, Hentry, length_app, length_fmap, Nat2Z.inj_add.
    by rewrite (assoc_L Z.add).
Qed.

(** X12.  [countWords()] is the length of [getAllWords()], for every node
    structure. *)
Theorem countWords_is_number_of_words (self : Trie.t) :
  countWords self = Z.of_nat (length (getAllWords self)).
Proof.
  rewrite getAllWords_words_of. unfold countWords.
  induction (root self) as [e ch IH] using TrieNode_children_ind.
  cbn [countWordsHelper words_of]. rewrite count_children by done.
  rewrite length_app, Nat2Z.inj_add. by destruct e.
Qed.

End trie_words.

(** ** The words below the children of a node *)

Section trie_children.

Local Abbreviation below ch :=
  (mjoin ((λ entry : ascii * TrieNode, (entry.1 ::.) <$> words_of entry.2) <$> ch)).

Lemma words_of_node e ch :
  words_of (Node e ch) = (if e then [[]] else []) ++ below ch.
Proof. reflexivity. Qed.

Lemma below_cons entry ch :
  below (entry :: ch) = ((entry.1 ::.) <$> words_of entry.2) ++ below ch.
Proof. reflexivity. Qed.

Lemma elem_of_below w ch :
  w ∈ below ch ↔ ∃ c child rest, w = c :: rest ∧ (c, child) ∈ ch ∧ rest ∈ words_of child.
Proof.
  rewrite list_elem_of_join. split.
  - intros (ws & Hw & (entry & -> & Hentry)%list_elem_of_fmap).
    apply list_elem_of_fmap in Hw as (rest & -> & Hrest).
    exists entry.1, entry.2, rest. by destruct entry.
  - intros (c & child & rest & -> & Hentry & Hrest).
    exists ((c ::.) <$> words_of child). split.
    + apply list_elem_of_fmap. by exists rest.
    + apply list_elem_of_fmap. by exists (c, child).
Qed.

Lemma nil_in_words_of node : [] ∈ words_of node ↔ isEndOfWord node = true.
Proof.
  destruct node as [e ch]. rewrite words_of_node, elem_of_app, elem_of_below. cbn.
  split.
  - intros [H|(c & child & rest & [=] & _)]. destruct e; [done|]. by apply elem_of_nil in H.
  - intros ->. left. by left.
Qed.

Lemma cons_in_words_of c rest node :
  c :: rest ∈ words_of node
  ↔ ∃ child, (c, child) ∈ children node ∧ rest ∈ words_of child.
Proof.
  destruct node as [e ch]. rewrite words_of_node, elem_of_app, elem_of_below. cbn.
  split.
  - intros [H|(c' & child & rest' & [= -> ->] & Hentry & Hrest)].
    + destruct e; [|by apply elem_of_nil in H].
      apply list_elem_of_singleton in H. done.
    + by exists child.
  - intros (child & Hentry & Hrest). right. by exists c, child, rest.
Qed.

Lemma filter_all {A} (P : A → Prop) `{!∀ x, Decision (P x)} (l : list A) :
  (∀ x, x ∈ l → P x) → filter P l = l.
Proof.
  induction l as [|x l IH]; intros Hall; [done|].
  rewrite filter_cons_True by (apply Hall; by left).
  rewrite IH; [done|]. intros y Hy. apply Hall. by right.
Qed.

Lemma filter_none {A} (P : A → Prop) `{!∀ x, Decision (P x)} (l : list A) :
  (∀ x, x ∈ l → ¬ P x) → filter P l = [].
Proof.
  induction l as [|x l IH]; intros Hnone; [done|].
  rewrite filter_cons_False by (apply Hnone; by left).
  apply IH. intros y Hy. apply Hnone. by right.
Qed.

Lemma filter_under_cons (P Q : Word → Prop)
    `{!∀ w, Decision (P w), !∀ w, Decision (Q w)} c (ws : list Word) :
  (∀ w, P (c :: w) ↔ Q w) →
  filter P ((c ::.) <$> ws) = (c ::.) <$> filter Q ws.
Proof.
  intros Hpq. induction ws as [|w ws IH]; [done|].
  rewrite fmap_cons, !filter_cons, IH.
  destruct (decide (P (c :: w))) as [Hp|Hp], (decide (Q w)) as [Hq|Hq];
    try done; by apply Hpq in Hp || (apply Hpq in Hq; done).
Qed.

Lemma below_key_absent c ch w :
  children_get c ch = None → w ∈ below ch → ∀ rest, w ≠ c :: rest.
Proof.
  intros Hget (c' & child & rest' & -> & Hentry & _)%elem_of_below rest [= -> _].
  apply children_get_None in Hget. apply Hget.
  apply list_elem_of_fmap. by exists (c, child).
Qed.

(** Among the words below the children, those with the prefix [c :: p]
    are the words with the prefix [p] below the child entered under [c]. *)
Lemma filter_prefix_below c (p : Word) ch :
  NoDup ch.*1 →
  filter (λ w, (c :: p) `prefix_of` w) (below ch)
  = match children_get c ch with
    | Some child => (c ::.) <$> filter (λ w, p `prefix_of` w) (words_of child)
    | None => []
    end.
Proof.
  induction ch as [|[c0 n0] ch IH]; intros Hnodup; [done|].
  apply NoDup_cons in Hnodup as [Hfresh Hnodup].
  rewrite below_cons, filter_app, IH by done. cbn [fst snd children_get].
  destruct (decide (c0 = c)) as [->|Hne].
  - rewrite (filter_under_cons _ (λ w, p `prefix_of` w)).
    2:{ intros w. split; [apply prefix_cons_inv_2|apply prefix_cons]. }
    destruct (children_get c ch) as [child|] eqn:Hget; [|by rewrite app_nil_r].
    exfalso. apply Hfresh. apply children_get_Some in Hget.
    apply list_elem_of_fmap. by exists (c, child).
  - rewrite filter_none; [done|].
    intros w (rest & -> & _)%list_elem_of_fmap Hprefix.
    by apply prefix_cons_inv_1 in Hprefix.
Qed.

End trie_children.

Section trie_prefix.
Import Trie.

Lemma descend_collects (p : Word) :
  ∀ node pre, unique_keys node →
    match descend node p with
    | None => []
    | Some current => collectWords current (pre ++ p) []
    end
    = (pre ++.) <$> filter (λ w, p `prefix_of` w) (words_of node).
Proof.
  induction p as [|c p IH]; intros node pre Hkeys.
  - cbn [descend]. rewrite collectWords_spec, app_nil_r. cbn [app].
    rewrite filter_all; [done|]. intros w _. apply prefix_nil.
  - cbn [descend]. destruct node as [e ch]. cbn [children].
    apply unique_keys_children in Hkeys as Hch. destruct Hch as [Hnodup _].
    rewrite words_of_node, filter_app, filter_prefix_below by done.
    rewrite (filter_none _ (if e then [[]] else [])).
    2:{ intros w Hw Hprefix. destruct e; [|by apply elem_of_nil in Hw].
        apply list_elem_of_singleton in Hw as ->. by apply prefix_nil_inv in Hprefix. }
    cbn [app].
    destruct (children_get c ch) as [child|] eqn:Hget; [|done].
    replace (pre ++ c :: p) with ((pre ++ [c]) ++ p) by by rewrite <- (assoc_L (++)).
    rewrite IH by by apply (unique_keys_child c child (Node e ch)).
    rewrite <- list_fmap_compose. apply list_fmap_ext. intros _ w _. cbn.
    by rewrite <- (assoc_L (++)).
Qed.

(** X13.  On a node structure whose [Map]s hold each key once,
    [getWordsWithPrefix(prefix)] returns the words of [getAllWords()] that
    start with the prefix, in the same order; the empty list when there is
    none. *)
Theorem getWordsWithPrefix_filters_getAllWords (prefix : Word) (self : Trie.t) :
  unique_keys (root self) →
  getWordsWithPrefix prefix self
  = filter (λ w, prefix `prefix_of` w) (getAllWords self).
Proof.
  intros Hkeys. unfold getWordsWithPrefix. rewrite getAllWords_words_of.
  pose proof (descend_collects prefix (root self) [] Hkeys) as H.
  cbn [app] in H. rewrite H.
  rewrite <- (list_fmap_id (filter _ _)) at 2. by apply list_fmap_ext.
Qed.

End trie_prefix.

(** ** Deleting a word *)

Section trie_delete.
Import Trie.

Local Abbreviation below ch :=
  (mjoin ((λ entry : ascii * TrieNode, (entry.1 ::.) <$> words_of entry.2) <$> ch)).

Lemma below_set_child c (r : Word) child child' ch :
  NoDup ch.*1 →
  children_get c ch = Some child →
  words_of child' = filter (λ w, w ≠ r) (words_of child) →
  below (children_set c child' ch) = filter (λ w, w ≠ c :: r) (below ch).
Proof.
  induction ch as [|[c0 n0] ch IH]; intros Hnodup Hget Hwords; [done|].
  apply NoDup_cons in Hnodup as [Hfresh Hnodup].
  cbn [children_get children_set] in *.
  destruct (decide (c0 = c)) as [->|Hne].
  - injection Hget as ->. rewrite !below_cons, filter_app. cbn [fst snd].
    rewrite Hwords, (filter_under_cons _ (λ w, w ≠ r)).
    2:{ intros w. split; congruence. }
    f_equal. symmetry. apply filter_all.
    intros w (c' & n' & rest & -> & Hentry & _)%elem_of_below [= -> _].
    apply Hfresh. apply list_elem_of_fmap. by exists (c, n').
  - rewrite !below_cons, filter_app, IH by done. cbn [fst snd]. f_equal.
    symmetry. apply filter_all.
    intros w (rest & -> & _)%list_elem_of_fmap. congruence.
Qed.

Lemma below_delete_barren c child' ch :
  NoDup ch.*1 →
  c ∈ ch.*1 →
  words_of child' = [] →
  below (children_delete c (children_set c child' ch))
  = below (children_set c child' ch).
Proof.
  unfold children_delete.
  induction ch as [|[c0 n0] ch IH]; intros Hnodup Hin Hbarren.
  { by apply elem_of_nil in Hin. }
  apply NoDup_cons in Hnodup as [Hfresh Hnodup]. cbn [children_set].
  destruct (decide (c0 = c)) as [->|Hne].
  - rewrite filter_cons_False by (cbn; auto).
    rewrite below_cons. cbn [fst snd]. rewrite Hbarren. cbn [fmap list_fmap app].
    rewrite (filter_all (λ entry : ascii * TrieNode, entry.1 ≠ c) ch); [done|].
    intros [c' n'] Hentry Heq. cbn in Heq. subst c'.
    apply Hfresh. apply list_elem_of_fmap. by exists (c, n').
  - rewrite filter_cons_True by done. rewrite !below_cons. f_equal.
    apply IH; [done| |done].
    cbn in Hin. apply elem_of_cons in Hin as [?|?]; [congruence|done].
Qed.

Lemma deleteHelper_true_barren node word :
  (deleteHelper node word).1 = true → words_of (deleteHelper node word).2 = [].
Proof.
  destruct node as [e ch], word as [|c rest]; cbn [deleteHelper isEndOfWord children].
  - destruct e; cbn [negb fst snd]; [|done]. case_bool_decide as Hlen; [|done].
    intros _. by destruct ch.
  - destruct (children_get c ch) as [child|]; [|done].
    destruct (deleteHelper child rest) as [[|] child']; cbn [fst snd]; [|done].
    case_bool_decide as Hlen; [|done]. destruct e; cbn [negb andb]; [done|].
    intros _. by destruct (children_delete c (children_set c child' ch)).
Qed.

Lemma deleteHelper_true_present word :
  ∀ node, (deleteHelper node word).1 = true → word ∈ words_of node.
Proof.
  induction word as [|c rest IH]; intros [e ch]; cbn [deleteHelper isEndOfWord children].
  - destruct e; cbn [negb fst]; [|done]. intros _.
    by apply (nil_in_words_of (Node true ch)).
  - destruct (children_get c ch) as [child|] eqn:Hget; [|done].
    specialize (IH child).
    destruct (deleteHelper child rest) as [[|] child']; cbn [fst]; [|done].
    intros _. apply (cons_in_words_of c rest (Node e ch)). exists child. split.
    + by apply children_get_Some.
    + by apply IH.
Qed.

Lemma deleteHelper_absent word :
  ∀ node, word ∉ words_of node → deleteHelper node word = (false, node).
Proof.
  induction word as [|c rest IH]; intros [e ch] Habsent;
    cbn [deleteHelper isEndOfWord children].
  - destruct e; [|done]. exfalso. by apply Habsent, (nil_in_words_of (Node true ch)).
  - destruct (children_get c ch) as [child|] eqn:Hget; [|done].
    rewrite (IH child).
    + by rewrite children_set_same.
    + intros Hrest. apply Habsent, (cons_in_words_of c rest (Node e ch)). exists child.
      split; [by apply children_get_Some|done].
Qed.

Lemma deleteHelper_words word :
  ∀ node, unique_keys node →
    words_of (deleteHelper node word).2 = filter (λ w, w ≠ word) (words_of node).
Proof.
  induction word as [|c rest IH]; intros [e ch] Hkeys;
    cbn [deleteHelper isEndOfWord children].
  - rewrite words_of_node, filter_app, (filter_all _ (below ch))
      by (by intros w (c & child & rest & -> & _)%elem_of_below).
    destruct e; cbn [negb snd]; [|by rewrite words_of_node].
    by rewrite words_of_node, filter_cons_False by auto.
  - apply unique_keys_children in Hkeys as Hch. destruct Hch as [Hnodup _].
    rewrite (words_of_node e ch), filter_app.
    rewrite (filter_all _ (if e then [[]] else [])).
    2:{ intros w Hw. destruct e; [|by apply elem_of_nil in Hw].
        by apply list_elem_of_singleton in Hw as ->. }
    destruct (children_get c ch) as [child|] eqn:Hget.
    2:{ cbn [snd]. rewrite words_of_node. f_equal. symmetry. apply filter_all.
        intros w Hw. by apply (below_key_absent c ch w Hget Hw). }
    pose proof (IH child (unique_keys_child c child (Node e ch) Hkeys Hget)) as Hchild.
    pose proof (deleteHelper_true_barren child rest) as Hbarren.
    destruct (deleteHelper child rest) as [[|] child']; cbn [fst snd] in *.
    + rewrite words_of_node. f_equal.
      rewrite below_delete_barren; [by apply (below_set_child c rest child)|done| |by apply Hbarren].
      apply children_get_Some in Hget. apply list_elem_of_fmap. by exists (c, child).
    + rewrite words_of_node. f_equal. by apply (below_set_child c rest child).
Qed.

(** X14.  On a node structure whose [Map]s hold each key once,
    [delete(word)] leaves the words of [getAllWords()] other than the
    word, in the same order.  It answers [true] only if the word was there
    and no word is left; it answers [false] and changes nothing if the
    word was not there. *)
Theorem delete_removes_the_word (word : Word) (self : Trie.t) :
  unique_keys (root self) →
  getAllWords (delete word self).2 = filter (λ w, w ≠ word) (getAllWords self)
  ∧ ((delete word self).1 = true →
       word ∈ getAllWords self ∧ getAllWords (delete word self).2 = [])
  ∧ (word ∉ getAllWords self → delete word self = (false, self)).
Proof.
  intros Hkeys.
  assert (Hdelete : delete word self
                    = ((deleteHelper (root self) word).1,
                       {| root := (deleteHelper (root self) word).2 |})).
  { unfold delete. by destruct (deleteHelper (root self) word). }
  rewrite Hdelete, !getAllWords_words_of. cbn [fst snd root]. split_and!.
  - by apply deleteHelper_words.
  - intros Htrue. split.
    + by apply deleteHelper_true_present.
    + by apply deleteHelper_true_barren.
  - intros Hnot. rewrite deleteHelper_absent by done. by destruct self.
Qed.

End trie_delete.

(** ** Searching with a wildcard *)

Section trie_wildcard.
Import WildcardTrie.

Lemma wildcard_spec (pattern : Word) :
  ∀ node, unique_keys node →
    searchWildcardHelper node pattern = true
    ↔ ∃ word, word ∈ words_of node ∧ fits pattern word.
Proof.
  induction pattern as [|p rest IH]; intros node Hkeys; cbn [searchWildcardHelper].
  - rewrite <- nil_in_words_of. split.
    + intros Hnil. exists []. split; [done|constructor].
    + intros (word & Hword & Hfits). by apply Forall2_nil_inv_l in Hfits as ->.
  - destruct node as [e ch]. cbn [children].
    apply unique_keys_children in Hkeys as Hch. destruct Hch as [Hnodup Hall].
    rewrite Forall_forall in Hall.
    destruct (decide (p = "."%char)) as [->|Hp].
    + rewrite existsb_exists. split.
      * intros ([c child] & Hentry%list_elem_of_In & Hsearch). cbn in Hsearch.
        apply IH in Hsearch as (word & Hword & Hfits); [|by apply (Hall (c, child))].
        exists (c :: word). split.
        -- apply (cons_in_words_of c word (Node e ch)). by exists child.
        -- constructor; [by left|done].
      * intros (word & Hword & Hfits).
        apply Forall2_cons_inv_l in Hfits as (c & word' & _ & Hfits & ->).
        apply (cons_in_words_of c word' (Node e ch)) in Hword as (child & Hentry & Hword).
        exists (c, child). split; [by apply list_elem_of_In|]. cbn.
        apply IH; [by apply (Hall (c, child))|]. by exists word'.
    + destruct (children_get p ch) as [child|] eqn:Hget.
      * rewrite IH by by apply (unique_keys_child p child (Node e ch)).
        split.
        -- intros (word & Hword & Hfits). exists (p :: word). split.
           ++ apply (cons_in_words_of p word (Node e ch)). exists child.
              split; [by apply children_get_Some|done].
           ++ constructor; [by right|done].
        -- intros (word & Hword & Hfits).
           apply Forall2_cons_inv_l in Hfits as (c & word' & [?| <-] & Hfits & ->); [done|].
           apply (cons_in_words_of p word' (Node e ch)) in Hword as (child' & Hentry & Hword).
           apply (children_get_unique _ _ _ Hnodup) in Hentry.
           rewrite Hget in Hentry. injection Hentry as <-. by exists word'.
      * split; [done|]. intros (word & Hword & Hfits).
        apply Forall2_cons_inv_l in Hfits as (c & word' & [?| <-] & Hfits & ->); [done|].
        apply (cons_in_words_of p word' (Node e ch)) in Hword as (child' & Hentry & Hword).
        apply (children_get_unique _ _ _ Hnodup) in Hentry. by rewrite Hget in Hentry.
Qed.

(** X15.  On a node structure whose [Map]s hold each key once,
    [searchWithWildcard(pattern)] answers [true] exactly when one of the
    words of [getAllWords()] has the length of the pattern and agrees with
    it at every place where the pattern has no dot. *)
Theorem searchWithWildcard_finds_fitting_word (pattern : Word) (self : Trie.t) :
  unique_keys (Trie.root self) →
  searchWithWildcard pattern self = true
  ↔ ∃ word, word ∈ Trie.getAllWords self ∧ fits pattern word.
Proof.
  intros Hkeys. unfold searchWithWildcard. rewrite getAllWords_words_of.
  by apply wildcard_spec.
Qed.

End trie_wildcard.

(** ** The sample structure *)

Lemma sampleRoot_unique_keys : unique_keys sampleRoot.
Proof.
  cbn. repeat split;
    repeat (apply NoDup_nil_2
            || (apply NoDup_cons_2;
                [rewrite ?elem_of_cons, elem_of_nil; intuition discriminate|])).
Defined.

Lemma getWordsWithPrefix_filters_getAllWords_witness :
  Trie.getWordsWithPrefix ["t"; "e"]%char {| Trie.root := sampleRoot |}
  = filter (λ w, ["t"; "e"]%char `prefix_of` w)
      (Trie.getAllWords {| Trie.root := sampleRoot |}).
Proof.
  apply getWordsWithPrefix_filters_getAllWords. exact sampleRoot_unique_keys.
Defined.

Lemma delete_removes_the_word_witness :
  Trie.getAllWords (Trie.delete ["t"; "e"; "a"]%char {| Trie.root := sampleRoot |}).2
  = filter (λ w, w ≠ ["t"; "e"; "a"]%char)
      (Trie.getAllWords {| Trie.root := sampleRoot |}).
Proof.
  apply (delete_removes_the_word ["t"; "e"; "a"]%char {| Trie.root := sampleRoot |}).
  exact sampleRoot_unique_keys.
Defined.

Lemma searchWithWildcard_finds_fitting_word_witness :
  WildcardTrie.searchWithWildcard ["t"; "."; "n"]%char {| Trie.root := sampleRoot |}
  = true
  ↔ ∃ word, word ∈ Trie.getAllWords {| Trie.root := sampleRoot |}
            ∧ fits ["t"; "."; "n"]%char word.
Proof.
  apply searchWithWildcard_finds_fitting_word. exact sampleRoot_unique_keys.
Defined.

(** The words of the sample, a deletion that prunes a branch, and a
    deletion that answers [false] although the word was there. *)
Example sample_words :
  Trie.getAllWords {| Trie.root := sampleRoot |}
  = [["t"; "o"]; ["t"; "e"; "a"]; ["t"; "e"; "n"]; ["i"]]%char
  ∧ Trie.countWords {| Trie.root := sampleRoot |} = 4
  ∧ Trie.delete ["i"]%char {| Trie.root := sampleRoot |}
    = (false,
       {| Trie.root :=
            Node false
              [("t"%char,
                Node false
                  [("o"%char, Node true []);
                   ("e"%char,
                    Node false [("a"%char, Node true []); ("n"%char, Node true [])])])] |})
  ∧ WildcardTrie.searchWithWildcard ["t"; "."; "n"]%char {| Trie.root := sampleRoot |}
    = true
  ∧ WildcardTrie.searchWithWildcard ["t"; "."]%char {| Trie.root := sampleRoot |}
    = true
  ∧ WildcardTrie.searchWithWildcard ["."; "."; "."; "."]%char
      {| Trie.root := sampleRoot |}
    = false.
Proof. repeat split; vm_compute; reflexivity. Qed.

(** ** After a denial, and a limiter that never limits *)

Section after_denial.
Import SlidingWindowRateLimiter.

(** X16.  On a sliding-window limiter used through [limit] only, when a
    call of a key is denied, a call of that key at or after the [resetAt]
    the denial returned, with no call of the key in between, is allowed. *)
Theorem window_call_at_resetAt_is_allowed size maxReq calls now later key r :
  (limit now key (run calls (fresh size maxReq))).1 = inr r →
  allowed r = false →
  resetAt r ≤ later →
  ∃ r', (limit later key (run calls (fresh size maxReq))).1 = inr r'
        ∧ allowed r' = true.
Proof.
  set (self := run calls (fresh size maxReq)).
  assert (Hok : windows_ok self).
  { apply run_windows_ok. unfold windows_ok, fresh. cbn. apply map_Forall_empty. }
  rewrite !limit_outcome. cbn zeta.
  destruct (Z.leb_spec (maxRequests self) (total (prune (now - windowSize self) (log key self))))
    as [Hfull|]; [|by intros [= <-]].
  destruct (prune (now - windowSize self) (log key self)) as [|oldest kept] eqn:Hkept;
    [done|].
  intros [= <-] _. cbn [resetAt]. intros Hlater.
  assert (Hin : oldest ∈ log key self).
  { assert (Hin' : oldest ∈ prune (now - windowSize self) (log key self))
      by (rewrite Hkept; by left).
    by apply elem_of_prune in Hin' as [? _]. }
  assert (Hold : now - windowSize self < timestamp oldest).
  { assert (Hin' : oldest ∈ prune (now - windowSize self) (log key self))
      by (rewrite Hkept; by left).
    by apply elem_of_prune in Hin' as [_ ?]. }
  assert (Hlog : Forall (λ e, count e = 1) (log key self)
                 ∧ Z.of_nat (length (log key self)) ≤ maxRequests self).
  { unfold log in *. destruct (windows self !! key) as [entries|] eqn:Hkey.
    - apply (Hok _ _ Hkey).
    - by apply elem_of_nil in Hin. }
  destruct Hlog as [Hones Hlen].
  assert (Hshort : (length (prune (later - windowSize self) (log key self))
                    < length (log key self))%nat).
  { unfold prune. apply (length_filter_lt _ _ oldest); [done|lia]. }
  rewrite (total_ones (prune (later - windowSize self) (log key self)))
    by by apply prune_ones.
  destruct (Z.leb_spec (maxRequests self)
              (Z.of_nat (length (prune (later - windowSize self) (log key self)))));
    [lia|].
  by eexists.
Qed.

Lemma window_call_at_resetAt_is_allowed_witness :
  ∃ r', (limit 1000 "user123" (run [(0, "user123")] (fresh 1000 1))).1 = inr r'
        ∧ allowed r' = true.
Proof.
  apply (window_call_at_resetAt_is_allowed 1000 1 [(0, "user123")] 999 1000 "user123"
           {| allowed := false; remaining := 0; resetAt := 1000;
              retryAfter := Some 1 |}).
  - vm_compute. reflexivity.
  - reflexivity.
  - cbn. lia.
Defined.

End after_denial.

Lemma run_keeps_empty cs self :
  RateLimiter.buckets self = ∅ →
  RateLimiter.buckets (RateLimiter.run cs self) = ∅
  ∧ RateLimiter.config (RateLimiter.run cs self) = RateLimiter.config self.
Proof.
  revert self. induction cs as [|c cs IH]; intros self Hempty; [done|].
  change (RateLimiter.run (c :: cs) self)
    with (RateLimiter.run cs (RateLimiter.step self c)).
  destruct (IH (RateLimiter.step self c)) as [Hb Hc].
  - destruct c as [now key n|now key|key|now|]; cbn.
    + done.
    + by rewrite getStatus_frame.
    + rewrite Hempty. apply delete_empty.
    + rewrite Hempty. apply map_filter_empty.
    + done.
  - split; [done|]. by rewrite Hc, step_config.
Qed.

(** X17.  The in-memory limiter never limits: on a limiter made by the
    constructor, whatever calls of [limit], [getStatus], [reset], the
    clean-up and [destroy] were made, no bucket exists, every [limit] call
    throws, and [getStatus] reports every key as allowed with
    [remaining = maxTokens]. *)
Theorem in_memory_limiter_never_limits cfg cs now key tokensRequested limiter :
  RateLimiter.constructor cfg = inr limiter →
  RateLimiter.buckets (RateLimiter.run cs limiter) = ∅
  ∧ (RateLimiter.limit now key tokensRequested (RateLimiter.run cs limiter)).1
    = inl NotImplemented
  ∧ (RateLimiter.getStatus now key (RateLimiter.run cs limiter)).1
    = {| allowed := true; remaining := maxTokens cfg;
         resetAt := now + refillInterval cfg; retryAfter := None |}.
Proof.
  intros Hnew.
  assert (Hfresh : RateLimiter.buckets limiter = ∅ ∧ RateLimiter.config limiter = cfg).
  { by injection Hnew as <-. }
  destruct Hfresh as [Hempty Hcfg].
  destruct (run_keeps_empty cs limiter Hempty) as [Hb Hc].
  split_and!; [done|done|].
  rewrite getStatus_absent.
  - by rewrite Hc, Hcfg.
  - rewrite Hb. apply lookup_empty.
Qed.

Lemma in_memory_limiter_never_limits_witness :
  RateLimiter.buckets
    (RateLimiter.run [RateLimiter.CallLimit 0 "user123" 1;
                      RateLimiter.CallLimit 0 "user123" 1]
       {| RateLimiter.buckets := ∅; RateLimiter.config := testConfig;
          RateLimiter.cleanupInterval := true |}) = ∅
  ∧ (RateLimiter.limit 0 "user123" 1
       (RateLimiter.run [RateLimiter.CallLimit 0 "user123" 1;
                         RateLimiter.CallLimit 0 "user123" 1]
          {| RateLimiter.buckets := ∅; RateLimiter.config := testConfig;
             RateLimiter.cleanupInterval := true |})).1
    = inl NotImplemented
  ∧ (RateLimiter.getStatus 0 "user123"
       (RateLimiter.run [RateLimiter.CallLimit 0 "user123" 1;
                         RateLimiter.CallLimit 0 "user123" 1]
          {| RateLimiter.buckets := ∅; RateLimiter.config := testConfig;
             RateLimiter.cleanupInterval := true |})).1
    = {| allowed := true; remaining := maxTokens testConfig;
         resetAt := 0 + refillInterval testConfig; retryAfter := None |}.
Proof. by apply (in_memory_limiter_never_limits testConfig). Defined.

(** ** The most frequent words *)

Section most_frequent.
Import TrieWithCount.

Local Abbreviation below ch :=
  (mjoin ((λ entry : ascii * TrieNodeWithCount,
             prod_map (entry.1 ::.) id <$> entries_of entry.2) <$> ch)).

Lemma TrieNodeWithCount_children_ind (P : TrieNodeWithCount → Prop) :
  (∀ e k ch, Forall (λ entry, P entry.2) ch → P (NodeWithCount e k ch)) →
  ∀ node, P node.
Proof.
  intros Hnode. fix IH 1. intros [e k ch]. apply Hnode.
  induction ch as [|entry ch IHch]; constructor; [apply IH|apply IHch].
Qed.

Lemma collect_count_children prefix words ch :
  Forall (λ entry, ∀ prefix words,
            collectWordsWithCount entry.2 prefix words
            = words ++ (prod_map (prefix ++.) id <$> entries_of entry.2)) ch →
  foldl (λ words entry,
           collectWordsWithCount entry.2 (prefix ++ [entry.1]) words) words ch
  = words ++ (prod_map (prefix ++.) id <$> below ch).
Proof.
  intros Hch. revert words.
  induction Hch as [|entry ch Hentry _ IH]; intros words; cbn.
  - by rewrite app_nil_r.
  - rewrite IH, Hentry, fmap_app, <- !(assoc_L (++)). do 2 f_equal.
    rewrite <- list_fmap_compose. apply list_fmap_ext. intros _ [w k] _. cbn.
    by rewrite <- (assoc_L (++)).
Qed.

Lemma collectWordsWithCount_spec node :
  ∀ prefix words,
    collectWordsWithCount node prefix words
    = words ++ (prod_map (prefix ++.) id <$> entries_of node).
Proof.
  induction node as [e k ch IH] using TrieNodeWithCount_children_ind.
  intros prefix words. cbn [collectWordsWithCount entries_of].
  rewrite collect_count_children by done.
  rewrite fmap_app, (assoc_L (++)). f_equal.
  destruct e; cbn; by rewrite ?app_nil_r.
Qed.

Lemma collect_all self :
  collectWordsWithCount (root self) [] [] = entries_of (root self).
Proof.
  rewrite collectWordsWithCount_spec. cbn.
  rewrite <- (list_fmap_id (entries_of (root self))) at 2.
  apply list_fmap_ext. by intros _ [w k] _.
Qed.

Lemma elem_of_entries_below w k ch :
  (w, k) ∈ below ch
  ↔ ∃ c child rest, w = c :: rest ∧ (c, child) ∈ ch ∧ (rest, k) ∈ entries_of child.
Proof.
  rewrite list_elem_of_join. split.
  - intros (ws & Hw & (entry & -> & Hentry)%list_elem_of_fmap).
    apply list_elem_of_fmap in Hw as ([rest k'] & [= -> ->] & Hrest).
    exists entry.1, entry.2, rest. by destruct entry.
  - intros (c & child & rest & -> & Hentry & Hrest).
    exists (prod_map (c ::.) id <$> entries_of child). split.
    + apply list_elem_of_fmap. by exists (rest, k).
    + apply list_elem_of_fmap. by exists (c, child).
Qed.

Lemma nil_in_entries_of k node :
  ([], k) ∈ entries_of node ↔ isEnd node = true ∧ k = countOf node.
Proof.
  destruct node as [e k0 ch]. cbn [entries_of isEnd countOf].
  rewrite elem_of_app, elem_of_entries_below. split.
  - intros [H|(c & child & rest & [=] & _)].
    destruct e; [|by apply elem_of_nil in H].
    apply list_elem_of_singleton in H. by injection H as ->.
  - intros [-> ->]. left. by left.
Qed.

Lemma cons_in_entries_of c rest k node :
  (c :: rest, k) ∈ entries_of node
  ↔ ∃ child, (c, child) ∈ childrenOf node ∧ (rest, k) ∈ entries_of child.
Proof.
  destruct node as [e k0 ch]. cbn [entries_of childrenOf].
  rewrite elem_of_app, elem_of_entries_below. split.
  - intros [H|(c' & child & rest' & [= -> ->] & Hentry & Hrest)].
    + destruct e; [|by apply elem_of_nil in H].
      apply list_elem_of_singleton in H. done.
    + by exists child.
  - intros (child & Hentry & Hrest). right. by exists c, child, rest.
Qed.

Lemma count_keys_children e k ch :
  unique_keys (NodeWithCount e k ch)
  ↔ NoDup ch.*1 ∧ Forall (λ entry, unique_keys entry.2) ch.
Proof.
  cbn [unique_keys]. apply and_iff_compat_l.
  induction ch as [|entry ch IH]; [by split; [constructor|]|].
  rewrite Forall_cons, <- IH. done.
Qed.

Lemma children_set_keys {V} c (v : V) m :
  NoDup m.*1 → NoDup (children_set c v m).*1.
Proof.
  induction m as [|[c0 x] m IH]; cbn.
  - intros _. apply NoDup_singleton.
  - intros [Hfresh Hnodup]%NoDup_cons.
    destruct (decide (c0 = c)) as [->|Hne]; cbn; apply NoDup_cons; split; auto.
    intros (entry & Hc0 & Hentry)%list_elem_of_fmap. apply Hfresh.
    apply list_elem_of_fmap. destruct entry as [c1 x1]. cbn in Hc0. subst c1.
    clear IH Hfresh Hnodup. induction m as [|[c2 x2] m IHm]; cbn in Hentry.
    + apply list_elem_of_singleton in Hentry. congruence.
    + destruct (decide (c2 = c)) as [->|Hc2].
      * apply elem_of_cons in Hentry as [[= -> _]|Hentry]; [done|].
        exists (c0, x1). split; [done|]. by right.
      * apply elem_of_cons in Hentry as [[= <- <-]|Hentry].
        -- exists (c0, x1). split; [done|]. by left.
        -- destruct (IHm Hentry) as (entry' & ? & ?). exists entry'.
           split; [done|]. by right.
Qed.

Lemma children_set_Forall {V} (P : V → Prop) c (v : V) m :
  Forall (λ entry, P entry.2) m → P v →
  Forall (λ entry, P entry.2) (children_set c v m).
Proof.
  intros Hm Hv. induction Hm as [|[c0 x] m Hx Hm IH]; cbn.
  - by repeat constructor.
  - destruct (decide (c0 = c)); constructor; auto.
Qed.

Lemma insertFrom_unique_keys word :
  ∀ current, unique_keys current → unique_keys (insertFrom current word).
Proof.
  induction word as [|c rest IH]; intros [e k ch] Hkeys; cbn [insertFrom isEnd countOf childrenOf].
  - done.
  - apply count_keys_children in Hkeys as [Hnodup Hall].
    apply count_keys_children. split; [by apply children_set_keys|].
    apply children_set_Forall; [done|]. apply IH.
    destruct (children_get c ch) as [child|] eqn:Hget.
    + rewrite Forall_forall in Hall. apply (Hall (c, child)).
      by apply children_get_Some.
    + by repeat split; constructor.
Qed.

Lemma inserted_unique_keys words : unique_keys (root (inserted words)).
Proof.
  induction words as [|w words IH] using rev_ind.
  - by repeat split; constructor.
  - rewrite inserted_snoc. by apply insertFrom_unique_keys.
Qed.

Lemma entries_of_fields word :
  ∀ node k, unique_keys node →
    (word, k) ∈ entries_of node ↔ fields (nodeAt node word) = (true, k).
Proof.
  induction word as [|c rest IH]; intros node k Hkeys.
  - rewrite nil_in_entries_of. cbn. split; [by intros [-> ->]|by intros [= -> ->]].
  - rewrite cons_in_entries_of. cbn [nodeAt].
    destruct node as [e k0 ch]. cbn [childrenOf].
    apply count_keys_children in Hkeys as [Hnodup Hall].
    rewrite Forall_forall in Hall. split.
    + intros (child & Hentry & Hrest).
      rewrite (children_get_unique _ _ _ Hnodup Hentry).
      by apply IH; [apply (Hall (c, child))|].
    + destruct (children_get c ch) as [child|] eqn:Hget; [|done].
      apply children_get_Some in Hget. intros Hfields. exists child.
      split; [done|]. by apply IH; [apply (Hall (c, child))|].
Qed.

Lemma entries_of_inserted words word k :
  (word, k) ∈ entries_of (root (inserted words))
  ↔ (0 < length (filter (λ w, w = word) words))%nat
    ∧ k = Z.of_nat (length (filter (λ w, w = word) words)).
Proof.
  rewrite entries_of_fields by apply inserted_unique_keys.
  rewrite fields_inserted. split.
  - intros [= Hpos <-]. split; [|done]. by apply bool_decide_eq_true in Hpos.
  - intros [Hpos ->]. f_equal. by apply bool_decide_eq_true.
Qed.

Lemma sortInsert_perm x sorted : sortInsert x sorted ≡ₚ x :: sorted.
Proof.
  induction sorted as [|y rest IH]; cbn; [done|].
  destruct (decide (x.2 - y.2 < 0)); [|done].
  rewrite IH. apply Permutation_swap.
Qed.

Lemma sortByCount_perm entries : sortByCount entries ≡ₚ entries.
Proof.
  induction entries as [|x entries IH]; cbn; [done|].
  by rewrite sortInsert_perm, IH.
Qed.

Lemma sortInsert_sorted x sorted :
  StronglySorted (λ a b, b.2 ≤ a.2) sorted →
  StronglySorted (λ a b, b.2 ≤ a.2) (sortInsert x sorted).
Proof.
  induction sorted as [|y rest IH]; cbn; intros Hsorted.
  - by repeat constructor.
  - apply StronglySorted_cons in Hsorted as [Hy Hrest].
    destruct (decide (x.2 - y.2 < 0)) as [Hlt|Hge].
    + apply StronglySorted_cons. split; [|by apply IH].
      rewrite sortInsert_perm. constructor; [lia|done].
    + apply StronglySorted_cons. split.
      * constructor; [lia|]. eapply Forall_impl; [exact Hy|]. cbn. intros z Hz. lia.
      * by apply StronglySorted_cons.
Qed.

Lemma sortByCount_sorted entries :
  StronglySorted (λ a b, b.2 ≤ a.2) (sortByCount entries).
Proof.
  induction entries as [|x entries IH]; cbn; [constructor|].
  by apply sortInsert_sorted.
Qed.

(** X18.  After any list of words was inserted into a new [TrieWithCount],
    [getMostFrequentWords(limit)] with [limit] not negative returns at most
    [limit] entries, by count from the highest down; each entry carries a
    word of the list with the number of times it is in the list; and when
    a word of the list is not returned, [limit] entries are, each of a
    word that is in the list at least as often. *)
Theorem getMostFrequentWords_top (words : list Word) (limit : Z) :
  0 ≤ limit →
  let occurrences word := Z.of_nat (length (filter (λ w, w = word) words)) in
  let result := getMostFrequentWords limit (inserted words) in
  Z.of_nat (length result) ≤ limit
  ∧ StronglySorted (λ a b, b.2 ≤ a.2) result
  ∧ (∀ word k, (word, k) ∈ result → word ∈ words ∧ k = occurrences word)
  ∧ (∀ word, word ∈ words → word ∉ result.*1 →
       Z.of_nat (length result) = limit
       ∧ ∀ entry, entry ∈ result → occurrences word ≤ entry.2).
Proof.
  intros Hlimit occurrences result.
  set (sorted := sortByCount (entries_of (root (inserted words)))).
  assert (Hresult : result = take (Z.to_nat limit) sorted).
  { subst result sorted. unfold getMostFrequentWords, sliceTo.
    rewrite collect_all. by rewrite (proj2 (Z.ltb_ge limit 0)) by done. }
  assert (Hsorted : StronglySorted (λ a b : Word * Z, b.2 ≤ a.2) sorted)
    by apply sortByCount_sorted.
  assert (Hsplit : sorted = result ++ drop (Z.to_nat limit) sorted)
    by (rewrite Hresult; symmetry; apply take_drop).
  assert (Hmem : ∀ word k, (word, k) ∈ sorted
                           ↔ (0 < length (filter (λ w, w = word) words))%nat
                             ∧ k = occurrences word).
  { intros word k. subst sorted. rewrite sortByCount_perm.
    apply entries_of_inserted. }
  split_and!.
  - rewrite Hresult, length_take. lia.
  - rewrite Hsplit in Hsorted. by apply StronglySorted_app_1_l in Hsorted.
  - intros word k Hin.
    assert (Hin' : (word, k) ∈ sorted) by (rewrite Hsplit; apply elem_of_app; by left).
    apply Hmem in Hin' as [Hpos ->]. split; [|done].
    destruct (filter (λ w, w = word) words) as [|w ws] eqn:Hfilter; [cbn in Hpos; lia|].
    assert (Hw : w ∈ filter (λ w, w = word) words) by (rewrite Hfilter; by left).
    by apply list_elem_of_filter in Hw as [-> ?].
  - intros word Hword Hmissing.
    assert (Hin : (word, occurrences word) ∈ sorted).
    { apply Hmem. split; [|done].
      assert (Hw : word ∈ filter (λ w, w = word) words)
        by by apply list_elem_of_filter.
      destruct (filter (λ w, w = word) words); [by apply elem_of_nil in Hw|cbn; lia]. }
    rewrite Hsplit in Hin. apply elem_of_app in Hin as [Hin|Hin].
    { exfalso. apply Hmissing. apply list_elem_of_fmap.
      by exists (word, occurrences word). }
    split.
    + rewrite Hresult, length_take.
      assert (Z.to_nat limit < length sorted)%nat; [|lia].
      destruct (decide (Z.to_nat limit < length sorted)%nat) as [|Hge]; [done|].
      rewrite drop_ge in Hin by lia. by apply elem_of_nil in Hin.
    + intros entry Hentry. rewrite Hsplit in Hsorted.
      apply (StronglySorted_app_1_elem_of _ _ _ entry (word, occurrences word))
        in Hsorted; done.
Qed.

Lemma getMostFrequentWords_top_witness :
  Z.of_nat (length (getMostFrequentWords 1
                      (inserted [["h"; "i"]; ["y"; "o"]; ["y"; "o"]]%char))) ≤ 1.
Proof.
  apply (getMostFrequentWords_top [["h"; "i"]; ["y"; "o"]; ["y"; "o"]]%char 1). lia.
Defined.

Example most_frequent_of_three :
  getMostFrequentWords 10 (inserted [["h"; "i"]; ["y"; "o"]; ["y"; "o"]; ["h"]]%char)
  = [(["y"; "o"], 2); (["h"], 1); (["h"; "i"], 1)]%char
  ∧ getMostFrequentWords (-1)
      (inserted [["h"; "i"]; ["y"; "o"]; ["y"; "o"]; ["h"]]%char)
    = [(["y"; "o"], 2); (["h"], 1)]%char.
Proof. split; vm_compute; reflexivity. Qed.

End most_frequent.

(** ** Bounded logs, and retrying when told *)

(** X19.  On a sliding-window limiter used through [limit] only, the log
    kept for a key never holds more than [maxRequests] entries, and each
    entry counts one request. *)
Theorem window_log_is_bounded size maxReq calls key :
  Z.of_nat (length (SlidingWindowRateLimiter.log key
                      (SlidingWindowRateLimiter.run calls
                         (SlidingWindowRateLimiter.fresh size maxReq))))
  ≤ Z.max 0 maxReq
  ∧ Forall (λ e, count e = 1)
      (SlidingWindowRateLimiter.log key
         (SlidingWindowRateLimiter.run calls
            (SlidingWindowRateLimiter.fresh size maxReq))).
Proof.
  set (self := SlidingWindowRateLimiter.run calls
                 (SlidingWindowRateLimiter.fresh size maxReq)).
  assert (Hok : SlidingWindowRateLimiter.windows_ok self).
  { apply run_windows_ok. unfold SlidingWindowRateLimiter.windows_ok,
      SlidingWindowRateLimiter.fresh. cbn. apply map_Forall_empty. }
  assert (Hmax : SlidingWindowRateLimiter.maxRequests self = maxReq)
    by apply (run_settings calls (SlidingWindowRateLimiter.fresh size maxReq)).
  unfold SlidingWindowRateLimiter.log.
  destruct (SlidingWindowRateLimiter.windows self !! key) as [entries|] eqn:Hkey.
  - destruct (Hok _ _ Hkey) as [Hones Hlen]. rewrite Hmax in Hlen.
    split; [|done]. cbn. lia.
  - split; [cbn; lia|done].
Qed.

Lemma ceil_div_upper (a d : Z) : 0 < d → a ≤ ceil_div a d * d.
Proof.
  intros Hd. unfold ceil_div.
  pose proof (Z.mul_div_le (- a) d Hd). lia.
Qed.

(** X20.  With [maxTokens], [refillRate] and [refillInterval] at least 1, on
    a store that answers and holds no negative token count for the key:
    when a call is denied with [retryAfter = n], the store is left as it
    was, and a call of the key made [n] seconds later or more, with no call
    of the key in between, is allowed. *)
Theorem retry_after_denial_is_allowed cfg now later key (s : StoreState) r seconds :
  1 ≤ maxTokens cfg → 1 ≤ refillRate cfg → 1 ≤ refillInterval cfg →
  (∀ bucket ttl, s !! DistributedRateLimiter.bucketKey key = Some (bucket, ttl) →
     0 ≤ tokens bucket) →
  (exec memStore (DistributedRateLimiter.limit cfg now key) s).1.1 = inr r →
  allowed r = false →
  retryAfter r = Some seconds →
  now + seconds * 1000 ≤ later →
  (exec memStore (DistributedRateLimiter.limit cfg now key) s).1.2 = s
  ∧ ∃ r', (exec memStore (DistributedRateLimiter.limit cfg later key) s).1.1 = inr r'
          ∧ allowed r' = true.
Proof.
  intros Hmax Hrate Hint Hstored. rewrite !exec_limit_mem. cbn zeta.
  destruct (s !! DistributedRateLimiter.bucketKey key) as [[bucket ttl]|] eqn:Hkey;
    cbn [fmap option_fmap option_map fst DistributedRateLimiter.loaded].
  2:{ (* a key the store has no bucket of is allowed *)
      unfold DistributedRateLimiter.refilled. cbn [lastRefill tokens].
      replace (now - now) with 0 by lia. replace (later - later) with 0 by lia.
      unfold floor_div. rewrite Z.div_0_l by lia. cbn [Z.ltb Z.compare].
      cbn [tokens]. rewrite (proj2 (Z.leb_le 1 (maxTokens cfg))) by done.
      by intros [= <-]. }
  specialize (Hstored bucket ttl eq_refl).
  change (DistributedRateLimiter.refilled cfg ?t bucket)
    with (RateLimiter.refillTokens cfg t bucket).
  destruct (Z.leb_spec 1 (tokens (RateLimiter.refillTokens cfg now bucket)))
    as [|Hlt]; cbn [fst snd]; [by intros [= <-]|].
  intros [= <-]. cbn [allowed retryAfter]. intros _ [= <-] Hlater.
  split; [done|].
  pose proof (ceil_div_upper (refillInterval cfg - (now - lastRefill bucket)) 1000)
    as Hceil.
  assert (Hwait : refillInterval cfg ≤ later - lastRefill bucket) by lia.
  assert (Hge : 1 ≤ tokens (RateLimiter.refillTokens cfg later bucket)).
  { rewrite refillTokens_full by lia. cbn.
    assert (0 < floor_div (later - lastRefill bucket) (refillInterval cfg))
      by (apply floor_div_pos_iff; lia).
    apply Z.min_glb; [done|]. nia. }
  apply Z.leb_le in Hge. rewrite Hge. by eexists.
Qed.

Lemma retry_after_denial_is_allowed_witness :
  (exec memStore (DistributedRateLimiter.limit testConfig 500 "user123")
     {["ratelimit:user123" := ({| tokens := 0; lastRefill := 0 |}, 2000)]}).1.2
  = {["ratelimit:user123" := ({| tokens := 0; lastRefill := 0 |}, 2000)]}
  ∧ ∃ r', (exec memStore (DistributedRateLimiter.limit testConfig 1500 "user123")
             {["ratelimit:user123" := ({| tokens := 0; lastRefill := 0 |}, 2000)]}).1.1
          = inr r'
          ∧ allowed r' = true.
Proof.
  apply (retry_after_denial_is_allowed testConfig 500 1500 "user123"
           {["ratelimit:user123" := ({| tokens := 0; lastRefill := 0 |}, 2000)]}
           {| allowed := false; remaining := 0; resetAt := 1000;
              retryAfter := Some 1 |} 1).
  - cbn. lia.
  - cbn. lia.
  - cbn. lia.
  - intros bucket ttl [_ [= <- _]]%lookup_singleton_Some. cbn. lia.
  - vm_compute. reflexivity.
  - reflexivity.
  - reflexivity.
  - lia.
Defined.
